(** * urlpy: a shallow embedding of [urlpy.py] and its specification

    The module [urlpy] holds one class, [URL], whose methods normalise the
    components of a parsed URL in place and compare two URLs.

    Conventions of the embedding.
    - A Python text string is the [string] of its UTF-8 bytes: an ASCII
      character is one [ascii], any other character the two to four bytes
      that encode it.  The order of strings by bytes is their order by
      code points.
    - [urllib_quote] and [urllib_unquote] are the names bound by the first
      import of the module, from [urllib.parse]: [quote] encodes the
      UTF-8 bytes of the text, [unquote] decodes the escapes to bytes and
      reads the bytes as UTF-8 with [errors='replace'].
    - [None] is [option]'s [None]; Python truthiness is written out
      ([truthy_str], [truthy_port]).
    - The standard-library services the module calls ([str.split],
      [str.join], [str.partition], [str.lower], [sorted], [re.sub] with the
      four patterns of the constructor and of [abspath], [urllib]'s [quote]
      and [unquote]) are modelled in [PyStr], [Re] and [Urllib].
    - [urlparse.urlparse] is an outside collaborator: [URL.parse] is
      modelled on the [ParseResult] it returns, or on the exception it
      raises.
    - A method body is a transformer of the object's fields; [Obj] places
      the objects in a store of references, where [equiv] runs. *)

From Stdlib Require Import Strings.String Strings.Ascii.
From Stdlib Require Import Lists.List.
From Stdlib Require Import ZArith Bool Lia.
From Stdlib Require Import Sorting.Permutation Structures.OrderedTypeEx.
Import ListNotations.

Local Open Scope string_scope.
Local Open Scope list_scope.

(** ** Python string primitives *)

Module PyStr.

(** [s.split(d)] for a one-character separator [d]: never the empty
    list. *)
Fixpoint split (d : ascii) (s : string) : list string :=
  match s with
  | EmptyString => [EmptyString]
  | String c r =>
      if Ascii.eqb c d then EmptyString :: split d r
      else match split d r with
           | [] => [String c EmptyString]
           | p :: ps => String c p :: ps
           end
  end.

(** [d.join(l)] for a one-character [d]. *)
Fixpoint join (d : ascii) (l : list string) : string :=
  match l with
  | [] => EmptyString
  | x :: r =>
      match r with
      | [] => x
      | _ :: _ => x ++ String d (join d r)
      end
  end.

(** [s.partition(d)]: the text before the first [d], whether [d] was
    found, and the text after it. *)
Fixpoint partition (d : ascii) (s : string) : string * bool * string :=
  match s with
  | EmptyString => (EmptyString, false, EmptyString)
  | String c r =>
      if Ascii.eqb c d then (EmptyString, true, r)
      else let '(a, found, b) := partition d r in (String c a, found, b)
  end.

Definition is_upper (c : ascii) : bool :=
  let n := N_of_ascii c in (65 <=? n)%N && (n <=? 90)%N.

Definition lower_char (c : ascii) : ascii :=
  if is_upper c then ascii_of_N (N_of_ascii c + 32) else c.

(** [s.lower()], on the ASCII letters; a cased letter outside ASCII is
    left as it is. *)
Fixpoint lower (s : string) : string :=
  match s with
  | EmptyString => EmptyString
  | String c r => String (lower_char c) (lower r)
  end.

Fixpoint insert (x : string) (l : list string) : list string :=
  match l with
  | [] => [x]
  | y :: r => if String.leb x y then x :: l else y :: insert x r
  end.

(** [sorted(l)] on strings: the ascending rearrangement of [l]. *)
Definition sorted (l : list string) : list string :=
  fold_right insert [] l.

(** [c in s] for a character. *)
Fixpoint mem (c : ascii) (s : string) : bool :=
  match s with
  | EmptyString => false
  | String x r => Ascii.eqb c x || mem c r
  end.

Definition starts_with (d : ascii) (s : string) : bool :=
  match s with
  | String c _ => Ascii.eqb c d
  | EmptyString => false
  end.

Fixpoint ends_with (d : ascii) (s : string) : bool :=
  match s with
  | EmptyString => false
  | String c EmptyString => Ascii.eqb c d
  | String _ r => ends_with d r
  end.

(** Two [d] in a row somewhere in [s]. *)
Fixpoint has_double (d : ascii) (s : string) : bool :=
  match s with
  | EmptyString => false
  | String c r => (Ascii.eqb c d && starts_with d r) || has_double d r
  end.

(** Truth value of a string: empty is false. *)
Definition nonempty (s : string) : bool :=
  match s with EmptyString => false | String _ _ => true end.

End PyStr.

(** ** The regular-expression substitutions of the module *)

Module Re.
Import PyStr.

(** [re.sub('^d+', '', s)]: drop the leading run of [d]. *)
Fixpoint strip_leading (d : ascii) (s : string) : string :=
  match s with
  | EmptyString => EmptyString
  | String c r => if Ascii.eqb c d then strip_leading d r else s
  end.

(** [re.sub('d{2,}', 'd', s)]: every run of two or more [d] becomes one
    [d].  A [d] followed by another [d] is dropped. *)
Fixpoint squeeze (d : ascii) (s : string) : string :=
  match s with
  | EmptyString => EmptyString
  | String c r =>
      if Ascii.eqb c d && starts_with d r then squeeze d r
      else String c (squeeze d r)
  end.

Definition newline : ascii := ascii_of_N 10.

(** Where ['$'] matches after a character: at the end of the text, or
    just before a newline that ends the text. *)
Definition at_dollar (r : string) : bool :=
  match r with
  | EmptyString => true
  | String c EmptyString => Ascii.eqb c newline
  | _ => false
  end.

(** The ['d$'] alternative of [re.sub('^d|d$', '', s)]. *)
Fixpoint drop_at_dollar (d : ascii) (s : string) : string :=
  match s with
  | EmptyString => EmptyString
  | String c r =>
      if Ascii.eqb c d && at_dollar r then r
      else String c (drop_at_dollar d r)
  end.

(** [re.sub('^d|d$', '', s)]: matches are taken left to right, the
    ['^d'] alternative first. *)
Definition strip_ends (d : ascii) (s : string) : string :=
  match s with
  | String c r => if Ascii.eqb c d then drop_at_dollar d r
                  else drop_at_dollar d s
  | EmptyString => EmptyString
  end.

End Re.

(** ** The UTF-8 codec, decoding with [errors='replace'] *)

Module Utf8.

(** What a byte can be in UTF-8. *)
Inductive bkind := KAscii | KCont | KLead2 | KLead3 | KLead4 | KBad.

Definition kind (b : ascii) : bkind :=
  let n := N_of_ascii b in
  if (n <? 128)%N then KAscii
  else if (n <? 192)%N then KCont
  else if (n <? 194)%N then KBad
  else if (n <? 224)%N then KLead2
  else if (n <? 240)%N then KLead3
  else if (n <? 245)%N then KLead4
  else KBad.

(** [b1] may follow the lead byte [b0]: a continuation byte that makes
    neither an overlong form, nor a surrogate, nor a code point above
    U+10FFFF. *)
Definition second_ok (b0 b1 : ascii) : bool :=
  match kind b1 with
  | KCont =>
      let n0 := N_of_ascii b0 in
      let n1 := N_of_ascii b1 in
      if (n0 =? 224)%N then (160 <=? n1)%N
      else if (n0 =? 237)%N then (n1 <? 160)%N
      else if (n0 =? 240)%N then (144 <=? n1)%N
      else if (n0 =? 244)%N then (n1 <? 144)%N
      else true
  | _ => false
  end.

Definition is_cont (b : ascii) : bool :=
  match kind b with KCont => true | _ => false end.

(** The bytes of a character begun and not yet complete. *)
Inductive dstate :=
| Start
| Got1 (b0 : ascii)
| Got2 (b0 b1 : ascii)
| Got3 (b0 b1 b2 : ascii).

(** U+FFFD, the replacement character, in UTF-8. *)
Definition REPLACEMENT : string :=
  String (ascii_of_N 239) (String (ascii_of_N 191) (String (ascii_of_N 189) EmptyString)).

(** A byte met at the start of a character: what is written, and the
    state after it. *)
Definition first (b : ascii) : string * dstate :=
  match kind b with
  | KAscii => (String b EmptyString, Start)
  | KLead2 | KLead3 | KLead4 => (EmptyString, Got1 b)
  | KCont | KBad => (REPLACEMENT, Start)
  end.

(** An ill-formed sequence ends before [b]: it is replaced by one U+FFFD
    and [b] starts afresh. *)
Definition restart (b : ascii) : string * dstate :=
  let '(out, st) := first b in ((REPLACEMENT ++ out)%string, st).

Definition step (st : dstate) (b : ascii) : string * dstate :=
  match st with
  | Start => first b
  | Got1 b0 =>
      if second_ok b0 b then
        match kind b0 with
        | KLead2 => (String b0 (String b EmptyString), Start)
        | _ => (EmptyString, Got2 b0 b)
        end
      else restart b
  | Got2 b0 b1 =>
      if is_cont b then
        match kind b0 with
        | KLead3 => (String b0 (String b1 (String b EmptyString)), Start)
        | _ => (EmptyString, Got3 b0 b1 b)
        end
      else restart b
  | Got3 b0 b1 b2 =>
      if is_cont b then
        (String b0 (String b1 (String b2 (String b EmptyString))), Start)
      else restart b
  end.

(** The end of the data inside a character: one U+FFFD. *)
Definition flush (st : dstate) : string :=
  match st with
  | Start => EmptyString
  | _ => REPLACEMENT
  end.

Fixpoint decode_from (st : dstate) (s : string) : string :=
  match s with
  | EmptyString => flush st
  | String b r => let '(out, st') := step st b in (out ++ decode_from st' r)%string
  end.

(** [bytes.decode('utf-8', 'replace')]: every maximal ill-formed
    sequence becomes one U+FFFD; the text is written in UTF-8 again. *)
Definition decode (s : string) : string := decode_from Start s.

(** The strict reading of one byte: no state when it is ill-formed. *)
Definition valid_step (st : dstate) (b : ascii) : option dstate :=
  match st with
  | Start =>
      match kind b with
      | KAscii => Some Start
      | KLead2 | KLead3 | KLead4 => Some (Got1 b)
      | KCont | KBad => None
      end
  | Got1 b0 =>
      if second_ok b0 b then
        match kind b0 with
        | KLead2 => Some Start
        | _ => Some (Got2 b0 b)
        end
      else None
  | Got2 b0 b1 =>
      if is_cont b then
        match kind b0 with
        | KLead3 => Some Start
        | _ => Some (Got3 b0 b1 b)
        end
      else None
  | Got3 b0 b1 b2 => if is_cont b then Some Start else None
  end.

Fixpoint valid_from (st : dstate) (s : string) : option dstate :=
  match s with
  | EmptyString => Some st
  | String b r =>
      match valid_step st b with
      | Some st' => valid_from st' r
      | None => None
      end
  end.

(** [s] is well-formed UTF-8: the encoding of a text. *)
Definition utf8_ok (s : string) : bool :=
  match valid_from Start s with
  | Some Start => true
  | _ => false
  end.

End Utf8.

(** ** urllib's percent-encoding services *)

Module Urllib.
Import PyStr.

Definition hex_value (c : ascii) : option N :=
  let n := N_of_ascii c in
  if (48 <=? n)%N && (n <=? 57)%N then Some (n - 48)%N
  else if (65 <=? n)%N && (n <=? 70)%N then Some (n - 55)%N
  else if (97 <=? n)%N && (n <=? 102)%N then Some (n - 87)%N
  else None.

(** The byte written by the two hexadecimal digits [a], [b]. *)
Definition hex_pair (a b : ascii) : option ascii :=
  match hex_value a, hex_value b with
  | Some h, Some l => Some (ascii_of_N (16 * h + l))
  | _, _ => None
  end.

Definition percent : ascii := "%"%char.

(** [unquote_to_bytes]: a ['%'] followed by two hexadecimal digits is one
    unit and yields the byte they write; every other character, a ['%']
    without two digits included, yields itself. *)
Fixpoint unquote_to_bytes (s : string) : string :=
  match s with
  | EmptyString => EmptyString
  | String c r =>
      match r with
      | String a (String b t) =>
          if Ascii.eqb c percent then
            match hex_pair a b with
            | Some x => String x (unquote_to_bytes t)
            | None => String c (unquote_to_bytes r)
            end
          else String c (unquote_to_bytes r)
      | _ => String c (unquote_to_bytes r)
      end
  end.

(** [unquote(s)], with its defaults [encoding='utf-8'] and
    [errors='replace']: the escapes are decoded to bytes and the bytes are
    read as UTF-8.  On a text, which is well-formed, reading the whole is
    reading each ASCII run, as the library does. *)
Definition unquote (s : string) : string := Utf8.decode (unquote_to_bytes s).

Definition hex_digit (n : N) : ascii :=
  if (n <? 10)%N then ascii_of_N (48 + n) else ascii_of_N (55 + n).

(** A ['%'] followed by the two upper-case digits of the byte [c]. *)
Definition pct_encode (c : ascii) : string :=
  let n := N_of_ascii c in
  String percent
    (String (hex_digit (n / 16)) (String (hex_digit (n mod 16)) EmptyString)).

Definition ALWAYS_SAFE : string :=
  "ABCDEFGHIJKLMNOPQRSTUVWXYZabcdefghijklmnopqrstuvwxyz0123456789_.-~".

(** [quote(s, safe=safe)]: every character outside [safe] and outside
    the always-safe set is percent-encoded. *)
Fixpoint quote (s : string) (safe : string) : string :=
  match s with
  | EmptyString => EmptyString
  | String c r =>
      if mem c ALWAYS_SAFE || mem c safe then String c (quote r safe)
      else pct_encode c ++ quote r safe
  end.

End Urllib.

(** ** The URL class *)

Import PyStr.

Inductive exn := KeyError | ValueError.

Inductive result (A : Type) :=
| Ok (a : A)
| Raise (e : exn).
Arguments Ok {A} a.
Arguments Raise {A} e.

(** The default ports associated with each scheme. *)
Definition PORTS : list (string * Z) := [("http", 80%Z); ("https", 443%Z)].

Fixpoint dict_get (d : list (string * Z)) (k : string) : option Z :=
  match d with
  | [] => None
  | (k', v) :: r => if String.eqb k k' then Some v else dict_get r k
  end.

(** [PORTS.get(scheme, None)]; a scheme of [None] is no key of the table. *)
Definition PORTS_get (scheme : option string) : option Z :=
  match scheme with
  | Some s => dict_get PORTS s
  | None => None
  end.

(** [PORTS[scheme]]: a missing key raises. *)
Definition PORTS_item (scheme : string) : result Z :=
  match dict_get PORTS scheme with
  | Some p => Ok p
  | None => Raise KeyError
  end.

Definition GEN_DELIMS : string := ":/?#[]@".
Definition SUB_DELIMS : string := "!$&'()*+,;=".
Definition ALPHA : string := "ABCDEFGHIJKLMNOPQRSTUVWXYZabcdefghijklmnopqrstuvwxyz".
Definition DIGIT : string := "0123456789".
Definition UNRESERVED : string := ALPHA ++ DIGIT ++ "-._~".
Definition RESERVED : string := GEN_DELIMS ++ SUB_DELIMS.
Definition PCHAR : string := UNRESERVED ++ SUB_DELIMS ++ ":@".
Definition PATH : string := PCHAR ++ "/".
Definition QUERY : string := PCHAR ++ "/?".
Definition FRAGMENT : string := PCHAR ++ "/?".
Definition USERINFO : string := UNRESERVED ++ SUB_DELIMS ++ ":".

Record URL := mkURL {
  scheme : option string;
  host : option string;
  port : option Z;
  path : string;
  params : string;
  query : string;
  fragment : option string;
  userinfo : option string
}.

Definition truthy_str (s : option string) : bool :=
  match s with
  | Some x => nonempty x
  | None => false
  end.

(** An integer is true unless it is zero. *)
Definition truthy_port (p : option Z) : bool :=
  match p with
  | Some n => negb (Z.eqb n 0)
  | None => false
  end.

Definition opt_eqb {A : Type} (eqb : A -> A -> bool) (a b : option A) : bool :=
  match a, b with
  | Some x, Some y => eqb x y
  | None, None => true
  | _, _ => false
  end.

(** [URL.__init__]. *)
Definition URL_init (scheme host : option string) (port : option Z)
    (path params query : string) (fragment userinfo : option string) : URL :=
  let path := if nonempty path then path else "/" in
  let params := Re.strip_leading ";" params in
  let params := Re.strip_ends ";" (Re.squeeze ";" params) in
  let query := Re.strip_leading "?" query in
  let query := Re.strip_ends "&" (Re.squeeze "&" query) in
  mkURL scheme host port path params query fragment userinfo.

(** [URL.copy]. *)
Definition copy (self : URL) : URL :=
  URL_init (scheme self) (host self) (port self) (path self) (params self)
    (query self) (fragment self) (userinfo self).

(** Reading [parsed.port]: the port, [None] when the text has none, or a
    [ValueError] raised for a port that is no number or is out of
    range. *)
Inductive port_read :=
| PortIs (p : option Z)
| PortValueError.

(** What [urlparse.urlparse] hands back. *)
Record ParseResult := mkParsed {
  p_scheme : string;
  p_hostname : option string;
  p_port : port_read;
  p_path : string;
  p_params : string;
  p_query : string;
  p_fragment : string;
  p_username : option string;
  p_password : option string
}.

(** [URL.parse] on a text argument, from the [ParseResult] of the text. *)
Definition parse_text (parsed : ParseResult) : URL :=
  let port := match p_port parsed with
              | PortIs p => p
              | PortValueError => None
              end in
  let userinfo := p_username parsed in
  let userinfo :=
    if truthy_str userinfo && truthy_str (p_password parsed) then
      match userinfo, p_password parsed with
      | Some u, Some p => Some (u ++ ":" ++ p)%string
      | _, _ => userinfo
      end
    else userinfo in
  URL_init (Some (p_scheme parsed)) (p_hostname parsed) port (p_path parsed)
    (p_params parsed) (p_query parsed) (Some (p_fragment parsed)) userinfo.

(** [URL.__eq__] between two URL objects. *)
Definition URL_eq (self other : URL) : bool :=
  opt_eqb String.eqb (scheme self) (scheme other) &&
  opt_eqb String.eqb (host self) (host other) &&
  String.eqb (path self) (path other) &&
  opt_eqb Z.eqb (port self) (port other) &&
  String.eqb (params self) (params other) &&
  String.eqb (query self) (query other) &&
  opt_eqb String.eqb (fragment self) (fragment other) &&
  opt_eqb String.eqb (userinfo self) (userinfo other).

(** [URL.canonical]. *)
Definition canonical (self : URL) : URL :=
  let query := join "&" (sorted (split "&" (query self))) in
  let params := join ";" (sorted (split ";" (params self))) in
  mkURL (scheme self) (host self) (port self) (path self) params query
    (fragment self) (userinfo self).

(** [URL.defrag]. *)
Definition defrag (self : URL) : URL :=
  mkURL (scheme self) (host self) (port self) (path self) (params self)
    (query self) None (userinfo self).

(** The local [keep] of [filter_params]. *)
Definition keep (function : string -> string -> bool) (query : string) : bool :=
  let '(name, _, value) := partition "=" query in
  negb (function name value).

(** One field of [filter_params]: the segments that are non-empty and kept,
    joined again. *)
Definition filter_field (d : ascii) (function : string -> string -> bool)
    (s : string) : string :=
  join d (filter (fun q => nonempty q && keep function q) (split d s)).

(** [URL.filter_params]. *)
Definition filter_params (function : string -> string -> bool) (self : URL) : URL :=
  let query := filter_field "&" function (query self) in
  let params := filter_field ";" function (params self) in
  mkURL (scheme self) (host self) (port self) (path self) params query
    (fragment self) (userinfo self).

(** [URL.deparam]. *)
Definition deparam (params : list string) (self : URL) : URL :=
  let lowered := map lower params in
  let function := fun (name _ : string) => existsb (String.eqb (lower name)) lowered in
  filter_params function self.

(** [URL.deuserinfo]. *)
Definition deuserinfo (self : URL) : URL :=
  mkURL (scheme self) (host self) (port self) (path self) (params self)
    (query self) (fragment self) None.

(** One turn of the loop of [abspath] on [part], with the list [unsplit]
    and the flag [directory]. *)
Definition abspath_step (st : list string * bool) (part : string)
    : list string * bool :=
  let '(unsplit, directory) := st in
  if String.eqb part ".." then
    match unsplit with
    | [] => (unsplit, true)
    | _ :: _ => (removelast unsplit, true)
    end
  else if negb (String.eqb part ".") then (unsplit ++ [part], false)
  else (unsplit, true).

(** The path computed by [abspath]. *)
Definition abspath_path (p : string) : string :=
  let path := Re.squeeze "/" p in
  let '(unsplit, directory) := fold_left abspath_step (split "/" path) ([], false) in
  if directory then (join "/" unsplit ++ "/")%string else join "/" unsplit.

(** [URL.abspath]. *)
Definition abspath (self : URL) : URL :=
  mkURL (scheme self) (host self) (port self) (abspath_path (path self))
    (params self) (query self) (fragment self) (userinfo self).

(** [URL.remove_default_port]. *)
Definition remove_default_port (self : URL) : result URL :=
  if truthy_port (port self) && truthy_str (scheme self) then
    match scheme self with
    | Some s =>
        match PORTS_item s with
        | Ok d =>
            if opt_eqb Z.eqb (port self) (Some d) then
              Ok (mkURL (scheme self) (host self) None (path self) (params self)
                    (query self) (fragment self) (userinfo self))
            else Ok self
        | Raise e => Raise e
        end
    | None => Ok self
    end
  else Ok self.

(** [URL.escape]. *)
Definition escape (self : URL) : URL :=
  let path := Urllib.quote (Urllib.unquote (path self)) PATH in
  let query := Urllib.quote (Urllib.unquote (query self)) QUERY in
  let params := Urllib.quote (Urllib.unquote (params self)) QUERY in
  let userinfo :=
    if truthy_str (userinfo self) then
      match userinfo self with
      | Some ui => Some (Urllib.quote (Urllib.unquote ui) USERINFO)
      | None => None
      end
    else userinfo self in
  mkURL (scheme self) (host self) (port self) path params query
    (fragment self) userinfo.

(** [URL.unescape]. *)
Definition unescape (self : URL) : URL :=
  mkURL (scheme self) (host self) (port self) (Urllib.unquote (path self))
    (params self) (query self) (fragment self) (userinfo self).

(** [URL.sanitize]. *)
Definition sanitize (self : URL) : URL := escape (abspath self).

(** The comparison that ends [equiv], on the two normalised objects. *)
Definition equiv_compare (_self _other : URL) : bool :=
  let result :=
    opt_eqb String.eqb (scheme _self) (scheme _other) &&
    opt_eqb String.eqb (host _self) (host _other) &&
    String.eqb (path _self) (path _other) &&
    String.eqb (params _self) (params _other) &&
    String.eqb (query _self) (query _other) in
  if result then
    if truthy_port (port _self) && negb (truthy_port (port _other)) then
      opt_eqb Z.eqb (port _self) (PORTS_get (scheme _self))
    else if truthy_port (port _other) && negb (truthy_port (port _self)) then
      opt_eqb Z.eqb (port _other) (PORTS_get (scheme _other))
    else opt_eqb Z.eqb (port _self) (port _other)
  else false.

(** ** Objects and references

    A URL object lives in a store; a method mutates the object its [self]
    reference points to and returns that same reference. *)

Module Obj.

Definition ref := nat.
Definition store := list URL.

Inductive outcome (A : Type) :=
| Done (a : A) (h : store)
| Raised (e : exn)
| Stuck.
Arguments Done {A} a h.
Arguments Raised {A} e.
Arguments Stuck {A}.

Definition M (A : Type) := store -> outcome A.

Definition ret {A : Type} (a : A) : M A := fun h => Done a h.

Definition bind {A B : Type} (m : M A) (k : A -> M B) : M B :=
  fun h => match m h with
           | Done a h' => k a h'
           | Raised e => Raised e
           | Stuck => Stuck
           end.

Notation "x <- m ;; k" := (bind m (fun x => k))
  (at level 61, m at next level, right associativity).

Fixpoint put (h : store) (r : ref) (u : URL) : store :=
  match h, r with
  | [], _ => []
  | _ :: t, O => u :: t
  | x :: t, S r' => x :: put t r' u
  end.

(** Reading the object behind a reference; a reference outside the store
    has no object, which no run of the program reaches. *)
Definition load (r : ref) : M URL :=
  fun h => match nth_error h r with
           | Some u => Done u h
           | None => Stuck
           end.

Definition new (u : URL) : M ref :=
  fun h => Done (length h) (h ++ [u]).

(** A method whose body [f] rewrites the fields of [self] and ends with
    [return self]. *)
Definition method (f : URL -> URL) (self : ref) : M ref :=
  fun h => match nth_error h self with
           | Some u => Done self (put h self (f u))
           | None => Stuck
           end.

(** The same for a body that may raise. *)
Definition method_raising (f : URL -> result URL) (self : ref) : M ref :=
  fun h => match nth_error h self with
           | Some u => match f u with
                       | Ok u' => Done self (put h self u')
                       | Raise e => Raised e
                       end
           | None => Stuck
           end.

(** The argument of [parse] and of [equiv]: a URL object, a text given by
    what [urlparse] returns for it, or a text on which [urlparse] itself
    raises. *)
Inductive pyarg :=
| AUrl (r : ref)
| AText (parsed : ParseResult)
| AUnparsed (e : exn).

(** [URL.parse]: an object is returned as it is, a text makes a new
    object; what [urlparse] raises, outside the [try], goes through. *)
Definition parse (url : pyarg) : M ref :=
  match url with
  | AUrl r => ret r
  | AText parsed => new (parse_text parsed)
  | AUnparsed e => fun _ => Raised e
  end.

Definition canonical : ref -> M ref := method canonical.
Definition defrag : ref -> M ref := method defrag.
Definition abspath : ref -> M ref := method abspath.
Definition escape : ref -> M ref := method escape.
Definition unescape : ref -> M ref := method unescape.
Definition deuserinfo : ref -> M ref := method deuserinfo.
Definition deparam (params : list string) : ref -> M ref :=
  method (deparam params).
Definition filter_params (function : string -> string -> bool) : ref -> M ref :=
  method (filter_params function).
Definition remove_default_port : ref -> M ref :=
  method_raising remove_default_port.

Definition copy (self : ref) : M ref :=
  u <- load self ;; new (copy u).

(** [URL.equiv]. *)
Definition equiv (self : ref) (other : pyarg) : M bool :=
  _other <- parse other ;;
  _other <- canonical _other ;;
  _other <- defrag _other ;;
  _other <- abspath _other ;;
  _other <- escape _other ;;
  _self <- parse (AUrl self) ;;
  _self <- canonical _self ;;
  _self <- defrag _self ;;
  _self <- abspath _self ;;
  _self <- escape _self ;;
  s <- load _self ;;
  o <- load _other ;;
  ret (equiv_compare s o).

(** The value returned by a run, when there is one. *)
Definition value {A : Type} (o : outcome A) : option A :=
  match o with
  | Done a _ => Some a
  | _ => None
  end.

(** The store left by a run, when there is one. *)
Definition final {A : Type} (o : outcome A) : option store :=
  match o with
  | Done _ h => Some h
  | _ => None
  end.

End Obj.

(** The normalisation [equiv] applies to each operand:
    [canonical().defrag().abspath().escape()]. *)
Definition normalise (u : URL) : URL :=
  escape (abspath (defrag (canonical u))).

(** ** Vocabulary of the properties *)

(** A text free of the separator [d]. *)
Definition no_delim (d : ascii) (p : string) : Prop := mem d p = false.

(** Each element is below its successor. *)
Inductive ascending : list string -> Prop :=
| asc_nil : ascending []
| asc_one x : ascending [x]
| asc_cons x y r : String.leb x y = true -> ascending (y :: r) -> ascending (x :: y :: r).

(** Every element but the last is non-empty. *)
Fixpoint init_nonempty (l : list string) : Prop :=
  match l with
  | [] => True
  | x :: r =>
      match r with
      | [] => True
      | _ :: _ => x <> EmptyString /\ init_nonempty r
      end
  end.

Definition slash : ascii := "/"%char.

(** A part that the walk appends: neither ["."] nor [".."], and free of
    ['/']. *)
Definition plain (p : string) : Prop :=
  p <> ".." /\ p <> "." /\ no_delim slash p.

(** The text assembled at the end of [abspath]. *)
Definition render (st : list string * bool) : string :=
  let '(unsplit, directory) := st in
  if directory then (join slash unsplit ++ "/")%string else join slash unsplit.

(** The loop of [abspath]. *)
Definition walk (parts : list string) (st : list string * bool) : list string * bool :=
  fold_left abspath_step parts st.

(** What the walk keeps true of its state between two parts. *)
Definition walk_inv (st : list string * bool) : Prop :=
  let '(u, directory) := st in
  Forall plain u /\
  Forall (fun x => x <> EmptyString) (tl u) /\
  (directory = false -> u <> []).

(** What holds of the state after the last part. *)
Definition walk_final (st : list string * bool) : Prop :=
  let '(u, directory) := st in
  Forall plain u /\
  (directory = false -> u <> []) /\
  (if directory then Forall (fun x => x <> EmptyString) (tl u)
   else init_nonempty (tl u)).

(** No leading, no trailing and no doubled [d]. *)
Definition clean (d : ascii) (s : string) : bool :=
  negb (starts_with d s) && negb (ends_with d s) && negb (has_double d s).

(** The non-empty segments of a [d]-separated field, in order. *)
Definition segments (d : ascii) (s : string) : list string :=
  filter nonempty (split d s).


Definition is_hex_digit (c : ascii) : bool := mem c "0123456789abcdefABCDEF".

(** The two characters after a ['%'] are hexadecimal digits. *)
Definition two_hex_digits (r : string) : bool :=
  match r with
  | String a (String b _) => is_hex_digit a && is_hex_digit b
  | _ => false
  end.

(** Some ['%'] of [s] is followed by two hexadecimal digits. *)
Fixpoint has_escape (s : string) : bool :=
  match s with
  | EmptyString => false
  | String c r => (Ascii.eqb c Urllib.percent && two_hex_digits r) || has_escape r
  end.

(** The five fields [equiv] compares for equality. *)
Definition same_fields (s o : URL) : Prop :=
  scheme s = scheme o /\ host s = host o /\ path s = path o /\
  params s = params o /\ query s = query o.

(** Ports match: both absent, both the same port, or one absent and the
    other the default port of its own scheme. *)
Definition ports_match (s o : URL) : Prop :=
  (port s = None /\ port o = None) \/
  (exists p, port s = Some p /\ port o = Some p) \/
  (exists p, port s = Some p /\ port o = None /\ PORTS_get (scheme s) = Some p) \/
  (exists p, port o = Some p /\ port s = None /\ PORTS_get (scheme o) = Some p).

(** The normalising operations of the public interface. *)
Inductive op :=
| Canonical
| Defrag
| Deuserinfo
| Deparam (names : list string)
| FilterParams (function : string -> string -> bool)
| Abspath
| Escape
| Unescape
| Sanitize
| RemoveDefaultPort.

Definition run_op (o : op) (u : URL) : result URL :=
  match o with
  | Canonical => Ok (canonical u)
  | Defrag => Ok (defrag u)
  | Deuserinfo => Ok (deuserinfo u)
  | Deparam names => Ok (deparam names u)
  | FilterParams function => Ok (filter_params function u)
  | Abspath => Ok (abspath u)
  | Escape => Ok (escape u)
  | Unescape => Ok (unescape u)
  | Sanitize => Ok (sanitize u)
  | RemoveDefaultPort => remove_default_port u
  end.

(** A chain of calls [u.op1().op2()...]. *)
Fixpoint run_ops (os : list op) (u : URL) : result URL :=
  match os with
  | [] => Ok u
  | o :: r =>
      match run_op o u with
      | Ok u' => run_ops r u'
      | Raise e => Raise e
      end
  end.

Definition calls_abspath (o : op) : bool :=
  match o with Abspath | Sanitize => true | _ => false end.

Definition calls_escape (o : op) : bool :=
  match o with Escape | Sanitize => true | _ => false end.

(** The invariant of the data model: a non-empty path, and [params] and
    [query] without leading, trailing or doubled separator. *)
Definition path_nonempty (u : URL) : Prop := path u <> EmptyString.

Definition separators_clean (u : URL) : Prop :=
  clean ";" (params u) = true /\ clean "&" (query u) = true.

Definition invariant (u : URL) : Prop := path_nonempty u /\ separators_clean u.

(** [n] times the character [c]. *)
Fixpoint run_of (c : ascii) (n : nat) : string :=
  match n with
  | O => EmptyString
  | S k => String c (run_of c k)
  end.

(** The object [self] with its port cleared. *)
Definition without_port (self : URL) : URL :=
  mkURL (scheme self) (host self) None (path self) (params self)
    (query self) (fragment self) (userinfo self).

(** What [urlparse] returns for a text with scheme, host, port, path and
    query only. *)
Definition parsed_of (sch h : string) (p : option Z) (pa q : string) : ParseResult :=
  mkParsed sch (Some h) (PortIs p) pa "" q "" None None.


(** [URL.__ne__]. *)
Definition URL_ne (self other : URL) : bool := negb (URL_eq self other).

(** The property [URL.hostname]. *)
Definition hostname (self : URL) : string :=
  match host self with
  | Some h => if nonempty h then h else EmptyString
  | None => EmptyString
  end.

(** The property [URL.absolute]. *)
Definition absolute (self : URL) : bool := truthy_str (host self).

(** Every character of [s] passes the test [f]. *)
Fixpoint all_chars (f : ascii -> bool) (s : string) : bool :=
  match s with
  | EmptyString => true
  | String c r => f c && all_chars f r
  end.

(** A character an encoded field may hold: one of [safe], or the ['%'] of
    an escape. *)
Definition encoded_char (safe : string) (c : ascii) : bool :=
  mem c safe || Ascii.eqb c Urllib.percent.

(** The chain [canonical().defrag().abspath().escape()] on one object. *)
Definition normalise_call (r : Obj.ref) : Obj.M Obj.ref :=
  Obj.bind (Obj.canonical r) (fun r1 =>
  Obj.bind (Obj.defrag r1) (fun r2 =>
  Obj.bind (Obj.abspath r2) (fun r3 => Obj.escape r3))).

(** Every ['%'] of [s] is followed by two hexadecimal digits. *)
Fixpoint well_escaped (s : string) : bool :=
  match s with
  | EmptyString => true
  | String c r =>
      (if Ascii.eqb c Urllib.percent then two_hex_digits r else true)
      && well_escaped r
  end.

(** What [quote] writes for one character. *)
Definition quote_char (safe : string) (c : ascii) : string :=
  if mem c Urllib.ALWAYS_SAFE || mem c safe then String c EmptyString
  else Urllib.pct_encode c.

(** The characters of an escape. *)
Definition ESCAPE_CHARS : string := "%0123456789ABCDEF".

(** What [equiv] makes of a separated field: sorted by [canonical], then
    decoded and encoded again by [escape]. *)
Definition normalise_field (d : ascii) (safe : string) (s : string) : string :=
  Urllib.quote (Urllib.unquote (join d (sorted (split d s)))) safe.

(** A path, encoded. *)
Definition quote_path (s : string) : string := Urllib.quote s PATH.

(** The path [equiv] compares: [abspath], then decoded and encoded. *)
Definition normalise_path (p : string) : string :=
  Urllib.quote (Urllib.unquote (abspath_path p)) PATH.

(** The bytes held by a state of the decoder. *)
Definition pending (st : Utf8.dstate) : string :=
  match st with
  | Utf8.Start => EmptyString
  | Utf8.Got1 b0 => String b0 EmptyString
  | Utf8.Got2 b0 b1 => String b0 (String b1 EmptyString)
  | Utf8.Got3 b0 b1 b2 => String b0 (String b1 (String b2 EmptyString))
  end.

(** The states the decoder reaches: the bytes held begin a character. *)
Definition reached (st : Utf8.dstate) : Prop :=
  match st with
  | Utf8.Start => True
  | Utf8.Got1 b0 =>
      Utf8.kind b0 = Utf8.KLead2 \/ Utf8.kind b0 = Utf8.KLead3 \/
      Utf8.kind b0 = Utf8.KLead4
  | Utf8.Got2 b0 b1 =>
      (Utf8.kind b0 = Utf8.KLead3 \/ Utf8.kind b0 = Utf8.KLead4) /\
      Utf8.second_ok b0 b1 = true
  | Utf8.Got3 b0 b1 b2 =>
      Utf8.kind b0 = Utf8.KLead4 /\ Utf8.second_ok b0 b1 = true /\
      Utf8.is_cont b2 = true
  end.

(** * Properties *)

(** ** Splitting and joining *)

Section SplitJoin.
Variable d : ascii.

Lemma split_not_nil (s : string) : split d s <> [].
Proof.
  destruct s as [|c r]; simpl; [discriminate|].
  destruct (Ascii.eqb c d); [discriminate|].
  destruct (split d r); discriminate.
Qed.

Lemma join_cons (x : string) (l : list string) :
  l <> [] -> join d (x :: l) = (x ++ String d (join d l))%string.
Proof. destruct l; [congruence | reflexivity]. Qed.

Lemma join_split (s : string) : join d (split d s) = s.
Proof.
  induction s as [|c r IH]; [reflexivity|].
  simpl split. destruct (Ascii.eqb_spec c d) as [->|Hc].
  - rewrite join_cons by apply split_not_nil. simpl. now rewrite IH.
  - pose proof (split_not_nil r) as Hnil.
    destruct (split d r) as [|p ps]; [congruence|].
    destruct ps as [|q qs]; simpl in *; now rewrite <- IH.
Qed.

Lemma split_no_delim (s : string) : Forall (no_delim d) (split d s).
Proof.
  induction s as [|c r IH]; simpl.
  - constructor; [reflexivity | constructor].
  - destruct (Ascii.eqb_spec c d) as [->|Hc].
    + constructor; [reflexivity | exact IH].
    + apply Ascii.eqb_neq in Hc.
      destruct (split d r) as [|p ps].
      * constructor; [|constructor].
        unfold no_delim; simpl. now rewrite Ascii.eqb_sym, Hc.
      * inversion IH; subst. constructor; [|assumption].
        unfold no_delim in *; simpl. now rewrite Ascii.eqb_sym, Hc.
Qed.

Lemma split_app_no_delim (x t : string) :
  no_delim d x ->
  split d (x ++ String d t) = x :: split d t.
Proof.
  induction x as [|c r IH]; intros Hx; simpl.
  - now rewrite Ascii.eqb_refl.
  - unfold no_delim in Hx; simpl in Hx.
    apply orb_false_iff in Hx as [Hc Hr].
    rewrite Ascii.eqb_sym, Hc. now rewrite (IH Hr).
Qed.

Lemma split_single (x : string) : no_delim d x -> split d x = [x].
Proof.
  induction x as [|c r IH]; intros Hx; [reflexivity|].
  unfold no_delim in Hx; simpl in Hx.
  apply orb_false_iff in Hx as [Hc Hr].
  simpl. rewrite Ascii.eqb_sym, Hc. now rewrite (IH Hr).
Qed.

Lemma split_join (l : list string) :
  l <> [] -> Forall (no_delim d) l -> split d (join d l) = l.
Proof.
  induction l as [|x r IH]; intros Hnil Hall; [congruence|].
  inversion Hall as [|? ? Hx Hr]; subst.
  destruct r as [|y r'].
  - simpl. now apply split_single.
  - rewrite join_cons by discriminate.
    rewrite split_app_no_delim by assumption.
    f_equal. apply IH; [discriminate | assumption].
Qed.

End SplitJoin.

(** ** Sorting *)

Lemma insert_not_nil (x : string) (l : list string) : insert x l <> [].
Proof. destruct l as [|y r]; simpl; [|destruct (String.leb x y)]; discriminate. Qed.

Lemma sorted_not_nil (l : list string) : l <> [] -> sorted l <> [].
Proof. destruct l; [congruence|]; intros _; simpl; apply insert_not_nil. Qed.

Lemma insert_Forall (P : string -> Prop) (x : string) (l : list string) :
  P x -> Forall P l -> Forall P (insert x l).
Proof.
  intros Hx; induction 1 as [|y r Hy Hr IH]; simpl.
  - repeat constructor; assumption.
  - destruct (String.leb x y); repeat constructor; assumption.
Qed.

Lemma sorted_Forall (P : string -> Prop) (l : list string) :
  Forall P l -> Forall P (sorted l).
Proof.
  induction 1; simpl; [constructor | now apply insert_Forall].
Qed.

Lemma insert_ascending (x : string) (l : list string) :
  ascending l -> ascending (insert x l).
Proof.
  induction 1 as [| y | y z r Hyz Hr IH]; simpl.
  - constructor.
  - destruct (String.leb x y) eqn:E.
    + now repeat constructor.
    + constructor; [|constructor].
      destruct (String.leb_total x y) as [H|H]; congruence.
  - destruct (String.leb x y) eqn:E.
    + now repeat constructor.
    + simpl in IH. destruct (String.leb x z) eqn:E2.
      * constructor; [|assumption].
        destruct (String.leb_total x y) as [H|H]; congruence.
      * now constructor.
Qed.

Lemma sorted_ascending (l : list string) : ascending (sorted l).
Proof. induction l; simpl; [constructor | now apply insert_ascending]. Qed.

Lemma sorted_of_ascending (l : list string) : ascending l -> sorted l = l.
Proof.
  induction 1 as [| y | y z r Hyz Hr IH]; [reflexivity | reflexivity |].
  change (sorted (y :: z :: r)) with (insert y (sorted (z :: r))).
  rewrite IH. simpl. now rewrite Hyz.
Qed.

Lemma sorted_idempotent (l : list string) : sorted (sorted l) = sorted l.
Proof. apply sorted_of_ascending, sorted_ascending. Qed.

(** One field of [canonical]. *)
Lemma canonical_field_idempotent (d : ascii) (s : string) :
  join d (sorted (split d (join d (sorted (split d s))))) = join d (sorted (split d s)).
Proof.
  rewrite split_join.
  - now rewrite sorted_idempotent.
  - apply sorted_not_nil, split_not_nil.
  - apply sorted_Forall, split_no_delim.
Qed.

Lemma canonical_idempotent (u : URL) : canonical (canonical u) = canonical u.
Proof.
  unfold canonical; simpl. now rewrite !canonical_field_idempotent.
Qed.

Lemma append_assoc (a b c : string) :
  ((a ++ b) ++ c)%string = (a ++ (b ++ c))%string.
Proof. induction a as [|x r IH]; [reflexivity|]. simpl. now rewrite IH. Qed.

Lemma append_empty_r (s : string) : (s ++ "")%string = s.
Proof. induction s as [|c r IH]; [reflexivity|]. simpl. now rewrite IH. Qed.

(** ** Reading UTF-8 *)

Import Utf8.

Lemma valid_from_app (a b : string) (st : dstate) :
  valid_from st (a ++ b) =
  match valid_from st a with
  | Some st' => valid_from st' b
  | None => None
  end.
Proof.
  revert st. induction a as [|c r IH]; intros st; [reflexivity|].
  cbn [append valid_from]. destruct (valid_step st c); [apply IH | reflexivity].
Qed.

(** A strict step is a step of the decoder that replaces nothing. *)
Lemma valid_step_step (st st' : dstate) (b : ascii) :
  valid_step st b = Some st' ->
  exists o, step st b = (o, st') /\
            (pending st ++ String b "")%string = (o ++ pending st')%string.
Proof.
  destruct st as [|b0|b0 b1|b0 b1 b2]; cbn [valid_step step]; unfold first.
  - destruct (kind b); intros [= <-]; eexists; split; reflexivity.
  - destruct (second_ok b0 b); [|discriminate].
    destruct (kind b0); intros [= <-]; eexists; split; reflexivity.
  - destruct (is_cont b); [|discriminate].
    destruct (kind b0); intros [= <-]; eexists; split; reflexivity.
  - destruct (is_cont b); [|discriminate].
    intros [= <-]; eexists; split; reflexivity.
Qed.

Lemma valid_from_decode (a : string) (st st' : dstate) :
  valid_from st a = Some st' ->
  exists o, (forall b, decode_from st (a ++ b) = (o ++ decode_from st' b)%string) /\
            (pending st ++ a)%string = (o ++ pending st')%string.
Proof.
  revert st. induction a as [|c r IH]; intros st H.
  - injection H as <-. exists EmptyString. split; [reflexivity|].
    now rewrite append_empty_r.
  - cbn [valid_from] in H. destruct (valid_step st c) as [st1|] eqn:E; [|discriminate].
    destruct (valid_step_step st st1 c E) as (o1 & Hs & Hp).
    destruct (IH st1 H) as (o2 & Hd & Hq).
    exists (o1 ++ o2)%string. split.
    + intros b. cbn [append decode_from]. rewrite Hs, Hd. now rewrite append_assoc.
    + change (String c r) with (String c "" ++ r)%string.
      rewrite <- append_assoc, Hp, !append_assoc. now rewrite Hq.
Qed.

Lemma utf8_ok_valid (s : string) :
  utf8_ok s = true <-> valid_from Start s = Some Start.
Proof.
  unfold utf8_ok. destruct (valid_from Start s) as [[| | |]|];
    split; congruence.
Qed.

(** Well-formed text is read as it is, whatever follows. *)
Lemma decode_app_ok (a b : string) :
  utf8_ok a = true -> decode (a ++ b) = (a ++ decode b)%string.
Proof.
  intros H. apply utf8_ok_valid in H.
  destruct (valid_from_decode a Start Start H) as (o & Hd & Hp).
  cbn [pending append] in Hp. rewrite append_empty_r in Hp. subst o.
  apply Hd.
Qed.

Lemma decode_ok (s : string) : utf8_ok s = true -> decode s = s.
Proof.
  intros H. rewrite <- (append_empty_r s) at 1.
  rewrite decode_app_ok by assumption. apply append_empty_r.
Qed.

Lemma utf8_ok_app (a b : string) :
  utf8_ok a = true -> utf8_ok (a ++ b) = utf8_ok b.
Proof.
  intros H. apply utf8_ok_valid in H.
  unfold utf8_ok. now rewrite valid_from_app, H.
Qed.

Lemma utf8_ok_REPLACEMENT : utf8_ok REPLACEMENT = true.
Proof. reflexivity. Qed.

Lemma first_ok (b : ascii) :
  utf8_ok (fst (first b)) = true /\ reached (snd (first b)).
Proof.
  unfold first. destruct (kind b) eqn:K; cbn [fst snd reached];
    split; auto; try reflexivity.
  unfold utf8_ok. cbn [valid_from valid_step]. now rewrite K.
Qed.

Lemma restart_ok (b : ascii) :
  utf8_ok (fst (restart b)) = true /\ reached (snd (restart b)).
Proof.
  unfold restart. destruct (first_ok b) as [H1 H2].
  destruct (first b) as [o st]. cbn [fst snd] in *.
  split; [|assumption]. now rewrite utf8_ok_app by apply utf8_ok_REPLACEMENT.
Qed.

(** Whatever a step writes is well-formed. *)
Lemma step_ok (st : dstate) (b : ascii) :
  reached st ->
  utf8_ok (fst (step st b)) = true /\ reached (snd (step st b)).
Proof.
  destruct st as [|b0|b0 b1|b0 b1 b2]; cbn [step reached].
  - intros _. apply first_ok.
  - intros K. destruct (second_ok b0 b) eqn:S; [|apply restart_ok].
    destruct (kind b0) eqn:K0; cbn [fst snd reached];
      try (destruct K as [K | [K | K]]; discriminate).
    + split; [|exact I]. unfold utf8_ok.
      repeat (cbn [valid_from valid_step]; rewrite ?K0, ?S). reflexivity.
    + split; [reflexivity|]. split; [now left | assumption].
    + split; [reflexivity|]. split; [now right | assumption].
  - intros [K S]. destruct (is_cont b) eqn:C; [|apply restart_ok].
    destruct (kind b0) eqn:K0; cbn [fst snd reached];
      try (destruct K as [K | K]; discriminate).
    + split; [|exact I]. unfold utf8_ok.
      repeat (cbn [valid_from valid_step]; rewrite ?K0, ?S, ?C). reflexivity.
    + split; [reflexivity|]. repeat split; assumption.
  - intros (K & S & C2). destruct (is_cont b) eqn:C; [|apply restart_ok].
    cbn [fst snd reached]. split; [|exact I].
    unfold utf8_ok.
    repeat (cbn [valid_from valid_step]; rewrite ?K, ?S, ?C2, ?C). reflexivity.
Qed.

(** The decoder writes well-formed text. *)
Lemma decode_from_ok (s : string) (st : dstate) :
  reached st -> utf8_ok (decode_from st s) = true.
Proof.
  revert st. induction s as [|b r IH]; intros st H.
  - destruct st; reflexivity.
  - cbn [decode_from]. destruct (step_ok st b H) as [H1 H2].
    destruct (step st b) as [o st']. cbn [fst snd] in *.
    rewrite utf8_ok_app by assumption. now apply IH.
Qed.

Lemma utf8_ok_decode (s : string) : utf8_ok (decode s) = true.
Proof. apply decode_from_ok. exact I. Qed.

Lemma decode_idempotent (s : string) : decode (decode s) = decode s.
Proof. apply decode_ok, utf8_ok_decode. Qed.

Lemma nonempty_app_l (a b : string) : nonempty a = true -> nonempty (a ++ b) = true.
Proof. destruct a; [discriminate | reflexivity]. Qed.

Lemma first_progress (b : ascii) :
  nonempty (fst (first b)) = true \/ snd (first b) <> Start.
Proof. unfold first. destruct (kind b); cbn [fst snd]; (now left) || (now right). Qed.

Lemma restart_progress (b : ascii) : nonempty (fst (restart b)) = true.
Proof. unfold restart. destruct (first b). reflexivity. Qed.

Lemma step_progress (st : dstate) (b : ascii) :
  nonempty (fst (step st b)) = true \/ snd (step st b) <> Start.
Proof.
  destruct st as [|b0|b0 b1|b0 b1 b2]; cbn [step].
  - apply first_progress.
  - destruct (second_ok b0 b); [|left; apply restart_progress].
    destruct (kind b0); cbn [fst snd]; (now left) || (now right).
  - destruct (is_cont b); [|left; apply restart_progress].
    destruct (kind b0); cbn [fst snd]; (now left) || (now right).
  - destruct (is_cont b); [|left; apply restart_progress]. now left.
Qed.

Lemma decode_from_pending (s : string) (st : dstate) :
  st <> Start -> nonempty (decode_from st s) = true.
Proof.
  revert st. induction s as [|b r IH]; intros st H.
  - destruct st; [congruence | reflexivity..].
  - cbn [decode_from]. destruct (step_progress st b) as [P | P];
      destruct (step st b) as [o st']; cbn [fst snd] in P.
    + now apply nonempty_app_l.
    + destruct o; [now apply IH | reflexivity].
Qed.

(** The decoder writes something for every byte it reads. *)
Lemma nonempty_decode (s : string) : nonempty (decode s) = nonempty s.
Proof.
  destruct s as [|b r]; [reflexivity|].
  unfold decode. cbn [decode_from nonempty].
  destruct (step_progress Start b) as [P | P];
    destruct (step Start b) as [o st']; cbn [fst snd] in P.
  - now apply nonempty_app_l.
  - destruct o; [now apply decode_from_pending | reflexivity].
Qed.

(** An ASCII character ends what is before it and begins anew. *)
Lemma valid_step_ascii (st : dstate) (c : ascii) :
  kind c = KAscii ->
  valid_step st c = match st with Start => Some Start | _ => None end.
Proof.
  intros K. destruct st as [|b0|b0 b1|b0 b1 b2]; cbn [valid_step].
  - now rewrite K.
  - unfold second_ok. now rewrite K.
  - unfold is_cont. now rewrite K.
  - unfold is_cont. now rewrite K.
Qed.

Lemma utf8_ok_app_ascii (c : ascii) (a b : string) :
  kind c = KAscii ->
  utf8_ok (a ++ String c b) = utf8_ok a && utf8_ok b.
Proof.
  intros K. unfold utf8_ok. rewrite valid_from_app.
  destruct (valid_from Start a) as [st|]; [|reflexivity].
  cbn [valid_from]. rewrite (valid_step_ascii st c K).
  destruct st; reflexivity.
Qed.

Lemma utf8_ok_join (d : ascii) (l : list string) :
  kind d = KAscii -> utf8_ok (join d l) = forallb utf8_ok l.
Proof.
  intros K. induction l as [|x r IH]; [reflexivity|].
  destruct r as [|y r'].
  - simpl. now rewrite andb_true_r.
  - rewrite join_cons by discriminate.
    rewrite (utf8_ok_app_ascii d) by assumption. now rewrite IH.
Qed.

Lemma utf8_ok_split (d : ascii) (s : string) :
  kind d = KAscii -> utf8_ok s = forallb utf8_ok (split d s).
Proof.
  intros K. rewrite <- (join_split d s) at 1. now apply utf8_ok_join.
Qed.

(** ** Percent-encoding *)

Import Urllib.

Lemma unquote_to_bytes_cons_other (c : ascii) (s : string) :
  c <> percent -> unquote_to_bytes (String c s) = String c (unquote_to_bytes s).
Proof.
  intros Hc. apply Ascii.eqb_neq in Hc.
  simpl. destruct s as [|a [|b t]]; try reflexivity.
  now rewrite Hc.
Qed.

Lemma unquote_to_bytes_escape_unit (a b x : ascii) (t : string) :
  hex_pair a b = Some x ->
  unquote_to_bytes (String percent (String a (String b t)))
  = String x (unquote_to_bytes t).
Proof. intros H. simpl. unfold percent in *. now rewrite H. Qed.

Lemma hex_pair_hex_digit (c : ascii) :
  hex_pair (hex_digit (N_of_ascii c / 16)) (hex_digit (N_of_ascii c mod 16)) = Some c.
Proof. destruct c as [[] [] [] [] [] [] [] []]; reflexivity. Qed.

Lemma unquote_to_bytes_pct_encode (c : ascii) (s : string) :
  unquote_to_bytes (pct_encode c ++ s) = String c (unquote_to_bytes s).
Proof.
  unfold pct_encode. cbn [append].
  apply unquote_to_bytes_escape_unit, hex_pair_hex_digit.
Qed.

Lemma mem_percent_ALWAYS_SAFE : mem percent ALWAYS_SAFE = false.
Proof. reflexivity. Qed.

Lemma quote_cons (c : ascii) (r safe : string) :
  quote (String c r) safe =
  if mem c ALWAYS_SAFE || mem c safe then String c (quote r safe)
  else (pct_encode c ++ quote r safe)%string.
Proof. reflexivity. Qed.

(** The bytes of an encoded text are the text, whenever ['%'] itself is
    encoded. *)
Lemma unquote_to_bytes_quote (safe s : string) :
  mem percent safe = false -> unquote_to_bytes (quote s safe) = s.
Proof.
  intros Hsafe. induction s as [|c r IH]; [reflexivity|].
  rewrite quote_cons. destruct (mem c ALWAYS_SAFE || mem c safe) eqn:E.
  - rewrite unquote_to_bytes_cons_other; [now rewrite IH|].
    intros ->. rewrite mem_percent_ALWAYS_SAFE, Hsafe in E. discriminate.
  - now rewrite unquote_to_bytes_pct_encode, IH.
Qed.

Lemma utf8_ok_unquote (s : string) : utf8_ok (unquote s) = true.
Proof. apply utf8_ok_decode. Qed.

(** Decoding undoes encoding on a text. *)
Lemma unquote_quote (safe s : string) :
  mem percent safe = false -> utf8_ok s = true -> unquote (quote s safe) = s.
Proof.
  intros Hsafe Hs. unfold unquote.
  rewrite unquote_to_bytes_quote by assumption. now apply decode_ok.
Qed.

Lemma unquote_quote_unquote (safe s : string) :
  mem percent safe = false -> unquote (quote (unquote s) safe) = unquote s.
Proof. intros H. apply unquote_quote; [assumption | apply utf8_ok_unquote]. Qed.

Lemma nonempty_unquote_to_bytes (s : string) :
  nonempty (unquote_to_bytes s) = nonempty s.
Proof.
  destruct s as [|c [|a [|b t]]]; try reflexivity.
  simpl. destruct (Ascii.eqb c percent); [|reflexivity].
  destruct (hex_pair a b); reflexivity.
Qed.

Lemma nonempty_unquote (s : string) : nonempty (unquote s) = nonempty s.
Proof.
  unfold unquote. now rewrite nonempty_decode, nonempty_unquote_to_bytes.
Qed.

Lemma nonempty_quote (s safe : string) : nonempty (quote s safe) = nonempty s.
Proof.
  destruct s as [|c r]; [reflexivity|].
  rewrite quote_cons. destruct (mem c ALWAYS_SAFE || mem c safe); reflexivity.
Qed.

Lemma escape_field_idempotent (safe s : string) :
  mem percent safe = false ->
  quote (unquote (quote (unquote s) safe)) safe = quote (unquote s) safe.
Proof. intros H. now rewrite unquote_quote_unquote. Qed.

Lemma escape_idempotent (u : URL) : escape (escape u) = escape u.
Proof.
  unfold escape; cbn [path query params userinfo scheme host port fragment].
  rewrite !escape_field_idempotent by reflexivity.
  f_equal.
  destruct (userinfo u) as [ui|]; [|reflexivity].
  cbn [truthy_str]. destruct (nonempty ui) eqn:E.
  - cbn [truthy_str]. rewrite nonempty_quote, nonempty_unquote, E.
    now rewrite unquote_quote_unquote by reflexivity.
  - cbn [truthy_str]. now rewrite E.
Qed.

(** ** Doubled separators *)

Section Doubled.
Variable d : ascii.

Lemma starts_with_squeeze (s : string) :
  starts_with d (Re.squeeze d s) = starts_with d s.
Proof.
  induction s as [|c r IH]; [reflexivity|].
  simpl. destruct (Ascii.eqb c d) eqn:E; simpl.
  - destruct (starts_with d r) eqn:F; [now rewrite IH | simpl; exact E].
  - exact E.
Qed.

Lemma has_double_squeeze (s : string) : has_double d (Re.squeeze d s) = false.
Proof.
  induction s as [|c r IH]; [reflexivity|].
  simpl. destruct (Ascii.eqb c d && starts_with d r) eqn:E; [exact IH|].
  simpl. now rewrite starts_with_squeeze, E, IH.
Qed.

Lemma squeeze_no_double (s : string) :
  has_double d s = false -> Re.squeeze d s = s.
Proof.
  induction s as [|c r IH]; [reflexivity|].
  simpl. intros H. apply orb_false_iff in H as [H1 H2].
  rewrite H1. now rewrite IH.
Qed.

Lemma no_delim_starts_with (x : string) :
  no_delim d x -> starts_with d x = false.
Proof.
  destruct x as [|c r]; [reflexivity|].
  unfold no_delim; simpl. intros H.
  apply orb_false_iff in H as [H _]. now rewrite Ascii.eqb_sym.
Qed.

Lemma has_double_app (x t : string) :
  no_delim d x ->
  has_double d (x ++ String d t) = starts_with d t || has_double d t.
Proof.
  induction x as [|c r IH]; intros Hx.
  - simpl. now rewrite Ascii.eqb_refl.
  - unfold no_delim in Hx; simpl in Hx.
    apply orb_false_iff in Hx as [Hc Hr].
    simpl. rewrite Ascii.eqb_sym, Hc. simpl. now apply IH.
Qed.

Lemma has_double_no_delim (x : string) :
  no_delim d x -> has_double d x = false.
Proof.
  induction x as [|c r IH]; [reflexivity|].
  unfold no_delim; simpl. intros H.
  apply orb_false_iff in H as [Hc Hr].
  rewrite Ascii.eqb_sym, Hc. simpl. now apply IH.
Qed.

Lemma starts_with_join (y : string) (r : list string) :
  no_delim d y ->
  starts_with d (join d (y :: r)) = true <-> y = EmptyString /\ r <> [].
Proof.
  intros Hy. destruct r as [|z r'].
  - simpl. rewrite no_delim_starts_with by assumption.
    split; [discriminate | intros [_ H]; congruence].
  - rewrite join_cons by discriminate.
    destruct y as [|c y'].
    + simpl. rewrite Ascii.eqb_refl.
      split; [split; [reflexivity | discriminate] | reflexivity].
    + simpl. apply no_delim_starts_with in Hy. simpl in Hy. rewrite Hy.
      split; [discriminate | intros [H _]; discriminate].
Qed.

(** A joined text has a doubled separator exactly when an element that
    is neither the first nor the last is empty. *)
Lemma has_double_join (l : list string) :
  Forall (no_delim d) l ->
  has_double d (join d l) = false <-> init_nonempty (tl l).
Proof.
  induction 1 as [|x r Hx Hr IH]; [simpl; tauto|].
  destruct r as [|y r'].
  - simpl. split; [trivial | intros _; now apply has_double_no_delim].
  - rewrite join_cons by discriminate.
    rewrite has_double_app by assumption.
    inversion Hr as [|? ? Hy Hr']; subst.
    cbn [tl] in *. rewrite orb_false_iff.
    destruct r' as [|z r''].
    + cbn [init_nonempty]. split; [trivial|]. intros _. split.
      * destruct (starts_with d (join d [y])) eqn:E; [|reflexivity].
        apply (starts_with_join y [] Hy) in E. destruct E as [_ E]. congruence.
      * now apply IH.
    + change (init_nonempty (y :: z :: r''))
        with (y <> EmptyString /\ init_nonempty (z :: r'')).
      rewrite IH. split.
      * intros [H1 H2]. split; [|assumption].
        intros ->. assert (starts_with d (join d ("" :: z :: r'')) = true) as E.
        { apply (starts_with_join "" (z :: r'') Hy). split; [reflexivity | discriminate]. }
        congruence.
      * intros [H1 H2]. split; [|assumption].
        destruct (starts_with d (join d (y :: z :: r''))) eqn:E; [|reflexivity].
        apply (starts_with_join y (z :: r'') Hy) in E. destruct E as [E _]. congruence.
Qed.

Lemma init_nonempty_of_Forall (t : list string) :
  Forall (fun x => x <> EmptyString) t -> init_nonempty t.
Proof.
  induction 1 as [|x r Hx Hr IH]; [exact I|].
  destruct r; simpl; [exact I | now split].
Qed.

Lemma init_nonempty_snoc (t : list string) (z : string) :
  Forall (fun x => x <> EmptyString) t -> init_nonempty (t ++ [z]).
Proof.
  induction 1 as [|x r Hx Hr IH]; [exact I|].
  change ((x :: r) ++ [z]) with (x :: (r ++ [z])).
  destruct (r ++ [z]) eqn:E; [exact I|]. cbn [init_nonempty]. now split.
Qed.

Lemma join_snoc (u : list string) (z : string) :
  u <> [] -> join d (u ++ [z]) = (join d u ++ String d z)%string.
Proof.
  induction u as [|x r IH]; [congruence|]. intros _.
  destruct r as [|y r'].
  - reflexivity.
  - change ((x :: y :: r') ++ [z]) with (x :: ((y :: r') ++ [z])).
    rewrite join_cons by (simpl; discriminate).
    rewrite IH by discriminate.
    rewrite (join_cons d x (y :: r')) by discriminate.
    generalize (join d (y :: r')); intros w.
    induction x as [|c x' IHx]; [reflexivity|].
    simpl. f_equal. exact IHx.
Qed.

End Doubled.

(** ** The walk of [abspath] *)

Lemma abspath_path_unfold (p : string) :
  abspath_path p = render (walk (split slash (Re.squeeze slash p)) ([], false)).
Proof. reflexivity. Qed.

Lemma step_dotdot (u : list string) (b : bool) :
  abspath_step (u, b) ".." = (removelast u, true).
Proof. destruct u; reflexivity. Qed.

Lemma step_dot (u : list string) (b : bool) :
  abspath_step (u, b) "." = (u, true).
Proof. reflexivity. Qed.

Lemma step_other (u : list string) (b : bool) (p : string) :
  p <> ".." -> p <> "." -> abspath_step (u, b) p = (u ++ [p], false).
Proof.
  intros H1 H2. unfold abspath_step.
  apply String.eqb_neq in H1, H2. now rewrite H1, H2.
Qed.

Lemma step_cases (u : list string) (b : bool) (p : string) :
  (p = ".." /\ abspath_step (u, b) p = (removelast u, true)) \/
  (p = "." /\ abspath_step (u, b) p = (u, true)) \/
  (p <> ".." /\ p <> "." /\ abspath_step (u, b) p = (u ++ [p], false)).
Proof.
  destruct (String.eqb_spec p "..") as [->|H1].
  - left. split; [reflexivity | apply step_dotdot].
  - destruct (String.eqb_spec p ".") as [->|H2].
    + right; left. split; [reflexivity | apply step_dot].
    + right; right. repeat split; try assumption. now apply step_other.
Qed.

(** On parts that are all plain the walk appends every one. *)
Lemma walk_plain (l u : list string) (b : bool) :
  Forall plain l -> l <> [] -> walk l (u, b) = (u ++ l, false).
Proof.
  intros Hl. revert u b. induction Hl as [|x r Hx Hr IH]; intros u b Hnil; [congruence|].
  destruct Hx as (H1 & H2 & _).
  unfold walk in *. cbn [fold_left]. rewrite step_other by assumption.
  destruct r as [|y r'].
  - reflexivity.
  - rewrite IH by discriminate. now rewrite <- app_assoc.
Qed.

Lemma Forall_removelast {A : Type} (P : A -> Prop) (l : list A) :
  Forall P l -> Forall P (removelast l).
Proof.
  induction 1 as [|x r Hx Hr IH]; [constructor|].
  destruct r; simpl; [constructor | now constructor].
Qed.

Lemma tl_removelast {A : Type} (l : list A) : tl (removelast l) = removelast (tl l).
Proof. destruct l as [|x [|y r]]; reflexivity. Qed.

Lemma tl_snoc {A : Type} (u : list A) (z : A) :
  tl (u ++ [z]) = match u with [] => [] | _ :: t => t ++ [z] end.
Proof. destruct u; reflexivity. Qed.

Lemma walk_inv_final (st : list string * bool) : walk_inv st -> walk_final st.
Proof.
  destruct st as [u [|]]; intros (H1 & H2 & H3); repeat split; try assumption.
  now apply init_nonempty_of_Forall.
Qed.

(** A step on a part that is non-empty and free of ['/']. *)
Lemma step_inv (st : list string * bool) (p : string) :
  walk_inv st -> no_delim slash p -> p <> EmptyString ->
  walk_inv (abspath_step st p).
Proof.
  destruct st as [u b]. intros (H1 & H2 & H3) Hp Hne.
  destruct (step_cases u b p) as [[-> E] | [[-> E] | (N1 & N2 & E)]]; rewrite E.
  - repeat split; [now apply Forall_removelast | | discriminate].
    rewrite tl_removelast. now apply Forall_removelast.
  - repeat split; [assumption | assumption | discriminate].
  - repeat split.
    + apply Forall_app. split; [assumption|]. repeat constructor; assumption.
    + rewrite tl_snoc. destruct u as [|a t]; [constructor|].
      apply Forall_app. split; [assumption | now repeat constructor].
    + intros _. destruct u; discriminate.
Qed.

(** The step on the last part, which may be empty. *)
Lemma step_last (st : list string * bool) (p : string) :
  walk_inv st -> no_delim slash p -> walk_final (abspath_step st p).
Proof.
  destruct st as [u b]. intros (H1 & H2 & H3) Hp.
  destruct (step_cases u b p) as [[-> E] | [[-> E] | (N1 & N2 & E)]]; rewrite E.
  - repeat split; [now apply Forall_removelast | discriminate |].
    rewrite tl_removelast. now apply Forall_removelast.
  - repeat split; [assumption | discriminate | assumption].
  - repeat split.
    + apply Forall_app. split; [assumption|]. repeat constructor; assumption.
    + intros _. destruct u; discriminate.
    + rewrite tl_snoc. destruct u as [|a t]; [exact I|].
      now apply init_nonempty_snoc.
Qed.

Lemma walk_keeps_inv (l : list string) (st : list string * bool) :
  walk_inv st -> Forall (no_delim slash) l -> init_nonempty l ->
  walk_final (walk l st).
Proof.
  revert st. induction l as [|x r IH]; intros st Hst Hl Hne.
  - now apply walk_inv_final.
  - inversion Hl as [|? ? Hx Hr]; subst.
    unfold walk in *. cbn [fold_left]. destruct r as [|y r'].
    + simpl. now apply step_last.
    + destruct Hne as [Hxne Hne].
      apply IH; [now apply step_inv | assumption | assumption].
Qed.

(** The first step, from the empty list. *)
Lemma step_first (p : string) :
  no_delim slash p -> walk_inv (abspath_step ([], false) p).
Proof.
  intros Hp.
  destruct (step_cases [] false p) as [[-> E] | [[-> E] | (N1 & N2 & E)]]; rewrite E.
  - repeat split; [constructor | constructor | discriminate].
  - repeat split; [constructor | constructor | discriminate].
  - repeat split; [| constructor | discriminate].
    repeat constructor; assumption.
Qed.

Lemma walk_of_path (p : string) :
  walk_final (walk (split slash (Re.squeeze slash p)) ([], false)).
Proof.
  pose proof (split_not_nil slash (Re.squeeze slash p)) as Hnil.
  pose proof (split_no_delim slash (Re.squeeze slash p)) as Hnd.
  assert (init_nonempty (tl (split slash (Re.squeeze slash p)))) as Hin.
  { apply (has_double_join slash); [assumption|].
    rewrite join_split. apply has_double_squeeze. }
  destruct (split slash (Re.squeeze slash p)) as [|x r]; [congruence|].
  inversion Hnd as [|? ? Hx Hr]; subst.
  unfold walk. cbn [fold_left].
  apply walk_keeps_inv; [now apply step_first | assumption | exact Hin].
Qed.

(** A text whose parts are plain and that has no doubled ['/'] is left as
    it is. *)
Lemma abspath_path_fixed (l : list string) :
  l <> [] -> Forall plain l -> init_nonempty (tl l) ->
  abspath_path (join slash l) = join slash l.
Proof.
  intros Hnil Hpl Hin.
  assert (Forall (no_delim slash) l) as Hnd.
  { eapply Forall_impl; [|exact Hpl]. intros a (_ & _ & H). exact H. }
  rewrite abspath_path_unfold.
  rewrite squeeze_no_double by (now apply has_double_join).
  rewrite split_join by assumption.
  rewrite walk_plain by assumption. reflexivity.
Qed.

Lemma plain_empty : plain EmptyString.
Proof. repeat split; discriminate. Qed.

Lemma abspath_path_idempotent (p : string) :
  abspath_path (abspath_path p) = abspath_path p.
Proof.
  rewrite (abspath_path_unfold p).
  pose proof (walk_of_path p) as H.
  destruct (walk (split slash (Re.squeeze slash p)) ([], false)) as [u [|]];
    destruct H as (H1 & H2 & H3); cbn [render].
  - destruct u as [|a t].
    + change (join slash [] ++ "/")%string with (join slash [""; ""]).
      apply abspath_path_fixed; [discriminate | | exact I].
      repeat constructor; try discriminate.
    + change (join slash (a :: t) ++ "/")%string
        with (join slash (a :: t) ++ String slash "")%string.
      rewrite <- (join_snoc slash (a :: t) "") by discriminate.
      apply abspath_path_fixed.
      * simpl; discriminate.
      * apply Forall_app. split; [assumption|].
        constructor; [apply plain_empty | constructor].
      * change (tl ((a :: t) ++ [""])) with (t ++ [""]).
        now apply init_nonempty_snoc.
  - apply abspath_path_fixed; [now apply H2 | assumption | assumption].
Qed.

Lemma abspath_idempotent (u : URL) : abspath (abspath u) = abspath u.
Proof.
  unfold abspath; simpl. now rewrite abspath_path_idempotent.
Qed.

(** ** Fields without stray separators *)

Section Clean.
Variable d : ascii.
Hypothesis d_not_newline : d <> Re.newline.

Lemma clean_intro (s : string) :
  starts_with d s = false -> ends_with d s = false -> has_double d s = false ->
  clean d s = true.
Proof. unfold clean. now intros -> -> ->. Qed.

Lemma clean_elim (s : string) :
  clean d s = true ->
  starts_with d s = false /\ ends_with d s = false /\ has_double d s = false.
Proof.
  unfold clean. intros H.
  apply andb_true_iff in H as [H H3]. apply andb_true_iff in H as [H1 H2].
  apply negb_true_iff in H1, H2, H3. auto.
Qed.

Lemma ends_with_cons (c : ascii) (r : string) :
  ends_with d (String c r) =
  match r with EmptyString => Ascii.eqb c d | _ => ends_with d r end.
Proof. destruct r; reflexivity. Qed.

Lemma at_dollar_cases (r : string) :
  Re.at_dollar r = true -> r = EmptyString \/ r = String Re.newline EmptyString.
Proof.
  destruct r as [|c [|c' r']]; simpl; intros H; try discriminate.
  - now left.
  - right. apply Ascii.eqb_eq in H. now subst.
Qed.

Lemma starts_with_drop (s : string) :
  starts_with d (Re.drop_at_dollar d s) = true -> starts_with d s = true.
Proof.
  destruct s as [|c r]; [discriminate|].
  simpl. destruct (Ascii.eqb c d) eqn:E; [reflexivity|].
  simpl. now rewrite E.
Qed.

Lemma to_bool_false (b : bool) : (b = true -> False) -> b = false.
Proof. destruct b; intuition. Qed.

Lemma ends_with_drop (s : string) :
  has_double d s = false -> ends_with d (Re.drop_at_dollar d s) = false.
Proof.
  induction s as [|c r IH]; [reflexivity|].
  intros H. simpl in H. apply orb_false_iff in H as [H1 H2].
  simpl. destruct (Ascii.eqb c d && Re.at_dollar r) eqn:E.
  - apply andb_true_iff in E as [_ E].
    destruct (at_dollar_cases r E) as [-> | ->]; [reflexivity|].
    change (ends_with d (String Re.newline "")) with (Ascii.eqb Re.newline d).
    apply Ascii.eqb_neq. congruence.
  - rewrite ends_with_cons.
    destruct (Re.drop_at_dollar d r) as [|c' r'] eqn:F.
    + (* the remainder vanished: [r] is empty or the single [d] *)
      destruct r as [|c2 r2].
      * simpl in E. now rewrite andb_true_r in E.
      * simpl in F. destruct (Ascii.eqb c2 d && Re.at_dollar r2) eqn:G;
          [|discriminate].
        apply andb_true_iff in G as [G _]. simpl in H1. rewrite G in H1.
        now rewrite andb_true_r in H1.
    + now apply IH.
Qed.

Lemma has_double_drop (s : string) :
  has_double d s = false -> has_double d (Re.drop_at_dollar d s) = false.
Proof.
  induction s as [|c r IH]; [reflexivity|].
  intros H. simpl in H. apply orb_false_iff in H as [H1 H2].
  simpl. destruct (Ascii.eqb c d && Re.at_dollar r) eqn:E; [assumption|].
  simpl. rewrite IH by assumption. rewrite orb_false_r.
  apply to_bool_false. intros G. apply andb_true_iff in G as [G1 G2].
  apply starts_with_drop in G2. now rewrite G1, G2 in H1.
Qed.

Lemma drop_clean (s : string) :
  starts_with d s = false -> has_double d s = false ->
  clean d (Re.drop_at_dollar d s) = true.
Proof.
  intros H1 H2. apply clean_intro.
  - apply to_bool_false. intros G. apply starts_with_drop in G. congruence.
  - now apply ends_with_drop.
  - now apply has_double_drop.
Qed.

(** What the constructor does to [params] and [query] leaves no stray
    separator. *)
Lemma strip_ends_clean (s : string) :
  has_double d s = false -> clean d (Re.strip_ends d s) = true.
Proof.
  intros H. destruct s as [|c r]; [reflexivity|].
  simpl in H. apply orb_false_iff in H as [H1 H2].
  unfold Re.strip_ends. destruct (Ascii.eqb c d) eqn:E.
  - apply drop_clean; [exact H1 | assumption].
  - apply drop_clean; [simpl; exact E|]. simpl. now rewrite E, H2.
Qed.

Lemma init_field_clean (s : string) :
  clean d (Re.strip_ends d (Re.squeeze d s)) = true.
Proof. apply strip_ends_clean, has_double_squeeze. Qed.

Lemma ends_with_app (x t : string) :
  ends_with d (x ++ String d t) = ends_with d (String d t).
Proof.
  induction x as [|c r IH]; [reflexivity|].
  change (String c r ++ String d t)%string with (String c (r ++ String d t)).
  rewrite ends_with_cons. destruct (r ++ String d t)%string eqn:F; [|exact IH].
  destruct r; discriminate.
Qed.

Lemma join_nonempty (x : string) (r : list string) :
  x <> EmptyString -> join d (x :: r) <> EmptyString.
Proof.
  intros Hx. destruct r; [exact Hx|].
  rewrite join_cons by discriminate. destruct x; [congruence | discriminate].
Qed.

(** Non-empty segments joined make a text without stray separators. *)
Lemma join_clean (l : list string) :
  Forall (no_delim d) l -> Forall (fun x => x <> EmptyString) l ->
  clean d (join d l) = true.
Proof.
  induction 1 as [|x r Hx Hr IH]; intros Hne; [reflexivity|].
  inversion Hne as [|? ? Hx1 Hr1]; subst.
  destruct r as [|y r'].
  - simpl. apply clean_intro.
    + now apply no_delim_starts_with.
    + clear - Hx. induction x as [|c x' IHx]; [reflexivity|].
      unfold no_delim in Hx; simpl in Hx. apply orb_false_iff in Hx as [Hc Hx'].
      rewrite ends_with_cons. destruct x'; [now rewrite Ascii.eqb_sym | now apply IHx].
    + now apply has_double_no_delim.
  - specialize (IH Hr1). apply clean_elim in IH as (I1 & I2 & I3).
    rewrite join_cons by discriminate. apply clean_intro.
    + destruct x as [|c x']; [congruence|].
      apply no_delim_starts_with in Hx. exact Hx.
    + rewrite ends_with_app, ends_with_cons.
      destruct (join d (y :: r')) eqn:F; [|exact I2].
      inversion Hr1; subst. now apply (join_nonempty y r') in F.
    + rewrite has_double_app by assumption. now rewrite I1, I3.
Qed.

(** A text without stray separators splits into non-empty segments. *)
Lemma split_of_clean_aux (s : string) :
  ends_with d s = false -> has_double d s = false ->
  Forall (fun x => x <> EmptyString) (tl (split d s)) /\
  (starts_with d s = false -> s <> EmptyString ->
   Forall (fun x => x <> EmptyString) (split d s)).
Proof.
  induction s as [|c r IH]; intros He Hd.
  - split; [constructor | congruence].
  - simpl in Hd. apply orb_false_iff in Hd as [Hd1 Hd2].
    rewrite ends_with_cons in He.
    assert (ends_with d r = false) as Her by (destruct r; [reflexivity | exact He]).
    destruct (IH Her Hd2) as [A B].
    simpl split. destruct (Ascii.eqb c d) eqn:E.
    + split; [|simpl; rewrite E; discriminate].
      cbn [tl]. apply B.
      * exact Hd1.
      * intros ->. simpl in He. congruence.
    + pose proof (split_not_nil d r) as Hnil.
      destruct (split d r) as [|p ps]; [congruence|]. cbn [tl] in *.
      split; [assumption|]. intros _ _. constructor; [discriminate | assumption].
Qed.

Lemma split_of_clean (s : string) :
  clean d s = true -> s <> EmptyString ->
  Forall (fun x => x <> EmptyString) (split d s).
Proof.
  intros H Hs. apply clean_elim in H as (H1 & H2 & H3).
  now apply split_of_clean_aux.
Qed.

Lemma canonical_field_clean (s : string) :
  clean d s = true -> clean d (join d (sorted (split d s))) = true.
Proof.
  intros H. destruct s as [|c r] eqn:Es; [reflexivity|]. rewrite <- Es in *.
  apply join_clean.
  - apply sorted_Forall, split_no_delim.
  - apply sorted_Forall, split_of_clean; [assumption | subst; discriminate].
Qed.

Lemma filter_field_clean (f : string -> string -> bool) (s : string) :
  clean d (filter_field d f s) = true.
Proof.
  unfold filter_field. apply join_clean.
  - apply Forall_forall. intros x Hx. apply filter_In in Hx as [Hx _].
    revert x Hx. apply Forall_forall, split_no_delim.
  - apply Forall_forall. intros x Hx. apply filter_In in Hx as [_ Hx].
    apply andb_true_iff in Hx as [Hx _]. intros ->. discriminate.
Qed.

End Clean.

(** ** Idempotence *)

(** C6. [abspath], [canonical] and [escape] are each idempotent: on every
    URL, applying the operation twice gives what applying it once gives. *)
Theorem normalisations_idempotent (u : URL) :
  abspath (abspath u) = abspath u /\
  canonical (canonical u) = canonical u /\
  escape (escape u) = escape u.
Proof.
  split; [apply abspath_idempotent|].
  split; [apply canonical_idempotent | apply escape_idempotent].
Qed.

(** ** The trailing slash of [abspath] *)

Lemma walk_snoc (l : list string) (p : string) (st : list string * bool) :
  walk (l ++ [p]) st = abspath_step (walk l st) p.
Proof. unfold walk. now rewrite fold_left_app. Qed.

(** The flag after the walk tells whether the last part was ["."] or
    [".."]. *)
Lemma walk_directory_flag (l : list string) (p : string) (st : list string * bool) :
  snd (walk (l ++ [p]) st) = String.eqb p ".." || String.eqb p ".".
Proof.
  rewrite walk_snoc. destruct (walk l st) as [u b].
  destruct (step_cases u b p) as [[-> E] | [[-> E] | (N1 & N2 & E)]];
    rewrite E; try reflexivity.
  apply String.eqb_neq in N1, N2. simpl. now rewrite N1, N2.
Qed.

(** The path of [abspath] is the kept parts joined, with one more ['/']
    exactly when the last part walked was ["."] or [".."]. *)
Lemma abspath_trailing_slash (p : string) :
  let parts := split slash (Re.squeeze slash p) in
  let final := last parts EmptyString in
  abspath_path p =
  (join slash (fst (walk parts ([], false))) ++
   if String.eqb final ".." || String.eqb final "." then "/" else "")%string.
Proof.
  intros parts final. rewrite abspath_path_unfold. fold parts.
  assert (parts <> []) as Hnil by apply split_not_nil.
  destruct (exists_last Hnil) as (l & z & E).
  assert (final = z) as -> by (unfold final; rewrite E; apply last_last).
  pose proof (walk_directory_flag l z ([], false)) as F.
  rewrite <- E in F. destruct (walk parts ([], false)) as [u b].
  simpl in F. subst b. cbn [render fst].
  destruct (String.eqb z ".." || String.eqb z "."); [reflexivity|].
  clear. induction (join slash u) as [|c r IH]; [reflexivity|].
  simpl. now rewrite <- IH.
Qed.

(** C3. [abspath] collapses runs of slashes and resolves ["."] and [".."]:
    ["/a/b/../c"] becomes ["/a/c"], ["/a/./b/"] becomes ["/a/b/"] and
    ["/a//b"] becomes ["/a/b"]; but ["/a/../../b"] becomes ["b"], not
    ["/b"]: the second [".."] pops the empty part that stands for the
    root. *)
Theorem abspath_parent_of_root_drops_slash :
  let url := fun p => URL_init (Some "http") (Some "x") None p "" "" None None in
  path (abspath (url "/a/b/../c")) = "/a/c" /\
  path (abspath (url "/a/./b/")) = "/a/b/" /\
  path (abspath (url "/a//b")) = "/a/b" /\
  path (abspath (url "/a/../../b")) = "b" /\
  path (abspath (url "/a/../../b")) <> "/b".
Proof. repeat split; try reflexivity. discriminate. Qed.

(** ** Default ports *)

Lemma PORTS_known (s : string) (d : Z) :
  dict_get PORTS s = Some d ->
  (s = "http" /\ d = 80%Z) \/ (s = "https" /\ d = 443%Z).
Proof.
  unfold PORTS; simpl.
  destruct (String.eqb_spec s "http") as [->|_]; [intros [= <-]; now left|].
  destruct (String.eqb_spec s "https") as [->|_]; [intros [= <-]; now right|].
  discriminate.
Qed.

(** On a scheme of the table, the port is cleared exactly when it is the
    default of the scheme. *)
Lemma remove_default_port_known (u : URL) (d : Z) :
  PORTS_get (scheme u) = Some d ->
  remove_default_port u =
  Ok (if opt_eqb Z.eqb (port u) (Some d) then without_port u else u).
Proof.
  unfold PORTS_get, remove_default_port, PORTS_item.
  destruct (scheme u) as [s|] eqn:Es; [|discriminate]. intros Hd.
  rewrite Hd. cbn [truthy_str].
  assert (nonempty s = true /\ d <> 0%Z) as [Hs Hd0].
  { destruct (PORTS_known s d Hd) as [[-> ->] | [-> ->]]; split; (reflexivity || discriminate). }
  rewrite Hs, andb_true_r.
  destruct (port u) as [n|] eqn:Ep; cbn [truthy_port opt_eqb].
  - destruct (Z.eqb_spec n 0) as [->|Hn]; cbn [negb].
    + destruct (Z.eqb_spec 0 d) as [E|_]; [congruence | reflexivity].
    + destruct (Z.eqb n d); [|reflexivity].
      unfold without_port. now rewrite Es.
  - reflexivity.
Qed.

(** Without a true port or a true scheme nothing is looked up. *)
Lemma remove_default_port_skipped (u : URL) :
  truthy_port (port u) && truthy_str (scheme u) = false ->
  remove_default_port u = Ok u.
Proof. unfold remove_default_port. now intros ->. Qed.

(** A true port on a true scheme outside the table raises. *)
Lemma remove_default_port_unknown (u : URL) :
  truthy_port (port u) = true -> truthy_str (scheme u) = true ->
  PORTS_get (scheme u) = None ->
  remove_default_port u = Raise KeyError.
Proof.
  unfold remove_default_port, PORTS_get, PORTS_item. intros H1 H2 H3.
  destruct (scheme u) as [s|]; [|discriminate H2].
  now rewrite H1, H2, H3.
Qed.

(** C4. [remove_default_port] clears a port that is the default of the
    scheme and leaves the URL as it is otherwise, never raising; on
    [ftp] with an explicit port the lookup [PORTS[self.scheme]] raises
    [KeyError] instead. *)
Theorem remove_default_port_raises_on_unknown_scheme :
  let ftp := URL_init (Some "ftp") (Some "example.com") (Some 21%Z) "/" "" "" None None in
  remove_default_port ftp = Raise KeyError /\
  Obj.remove_default_port 0 [ftp] = Obj.Raised KeyError.
Proof. split; reflexivity. Qed.

(** ** Equivalence *)

Lemma opt_str_eqb_eq (a b : option string) :
  opt_eqb String.eqb a b = true <-> a = b.
Proof.
  destruct a as [x|], b as [y|]; simpl; try (split; congruence).
  rewrite String.eqb_eq. split; congruence.
Qed.

Lemma opt_Z_eqb_eq (a b : option Z) :
  opt_eqb Z.eqb a b = true <-> a = b.
Proof.
  destruct a as [x|], b as [y|]; simpl; try (split; congruence).
  rewrite Z.eqb_eq. split; congruence.
Qed.

(** The five comparisons of [equiv]. *)
Lemma same_fields_eqb (s o : URL) :
  opt_eqb String.eqb (scheme s) (scheme o) &&
  opt_eqb String.eqb (host s) (host o) &&
  String.eqb (path s) (path o) &&
  String.eqb (params s) (params o) &&
  String.eqb (query s) (query o) = true <-> same_fields s o.
Proof.
  unfold same_fields.
  rewrite !andb_true_iff, !opt_str_eqb_eq, !String.eqb_eq. tauto.
Qed.

Lemma truthy_port_nonzero (p : option Z) :
  p <> Some 0%Z -> truthy_port p = match p with Some _ => true | None => false end.
Proof.
  destruct p as [n|]; [|reflexivity]. intros H. simpl.
  destruct (Z.eqb_spec n 0) as [->|_]; [congruence | reflexivity].
Qed.

(** As long as neither port is [0], the comparison of [equiv] is equality
    of the five fields together with matching ports. *)
Lemma equiv_compare_spec (s o : URL) :
  port s <> Some 0%Z -> port o <> Some 0%Z ->
  equiv_compare s o = true <-> same_fields s o /\ ports_match s o.
Proof.
  intros Hs Ho. unfold equiv_compare.
  pose proof (same_fields_eqb s o) as F.
  destruct (opt_eqb String.eqb (scheme s) (scheme o) &&
            opt_eqb String.eqb (host s) (host o) &&
            String.eqb (path s) (path o) &&
            String.eqb (params s) (params o) &&
            String.eqb (query s) (query o)).
  2:{ split; [discriminate|]. intros [H _]. apply F in H. discriminate. }
  assert (same_fields s o) as Hf by now apply F.
  rewrite (truthy_port_nonzero _ Hs), (truthy_port_nonzero _ Ho).
  unfold ports_match.
  destruct (port s) as [n|] eqn:Es, (port o) as [m|] eqn:Eo; cbn [negb andb].
  - rewrite opt_Z_eqb_eq. split.
    + intros [= ->]. split; [assumption|]. right; left. now exists m.
    + intros [_ [[H _] | [(p & H1 & H2) | [(p & _ & H & _) | (p & _ & H & _)]]]];
        congruence.
  - rewrite opt_Z_eqb_eq. split.
    + intros H. split; [assumption|]. right; right; left. now exists n.
    + intros [_ [[H _] | [(p & _ & H) | [(p & H1 & _ & H2) | (p & H & _)]]]];
        congruence.
  - rewrite opt_Z_eqb_eq. split.
    + intros H. split; [assumption|]. right; right; right. now exists m.
    + intros [_ [[_ H] | [(p & H & _) | [(p & H & _) | (p & H1 & _ & H2)]]]];
        congruence.
  - split; [|reflexivity]. intros _. split; [assumption|]. now left.
Qed.

Lemma equiv_compare_refl (u : URL) : equiv_compare u u = true.
Proof.
  unfold equiv_compare.
  assert (same_fields u u) as H by (repeat split).
  apply same_fields_eqb in H. rewrite H.
  destruct (truthy_port (port u)); cbn [negb andb]; now apply opt_Z_eqb_eq.
Qed.

(** [equiv] between two objects: each is normalised in place, then the two
    are compared. *)
Lemma equiv_on_two_objects (u v : URL) :
  Obj.equiv 0 (Obj.AUrl 1) [u; v] =
  Obj.Done (equiv_compare (normalise u) (normalise v)) [normalise u; normalise v].
Proof. reflexivity. Qed.

(** [equiv] of an object with a text: the text is parsed into a new
    object. *)
Lemma equiv_with_text (u : URL) (parsed : ParseResult) :
  Obj.equiv 0 (Obj.AText parsed) [u] =
  Obj.Done (equiv_compare (normalise u) (normalise (parse_text parsed)))
    [normalise u; normalise (parse_text parsed)].
Proof. reflexivity. Qed.

(** [equiv] of an object with itself: the one object is normalised twice. *)
Lemma equiv_on_one_object (u : URL) :
  Obj.equiv 0 (Obj.AUrl 0) [u] = Obj.Done true [normalise (normalise u)].
Proof.
  unfold Obj.equiv, Obj.bind; simpl.
  now rewrite equiv_compare_refl.
Qed.

(** The three comparisons the specification lists. *)
Lemma equiv_examples :
  Obj.value (Obj.equiv 0 (Obj.AText (parsed_of "http" "example.com" None "/b" ""))
               [parse_text (parsed_of "http" "example.com" (Some 80%Z) "/a/../b" "")])
  = Some true /\
  Obj.value (Obj.equiv 0 (Obj.AText (parsed_of "http" "x" None "/a" "a=2&b=1"))
               [parse_text (parsed_of "http" "x" None "/a" "b=1&a=2")])
  = Some true /\
  Obj.value (Obj.equiv 0 (Obj.AText (parsed_of "https" "x" None "/a" ""))
               [parse_text (parsed_of "http" "x" None "/a" "")])
  = Some false.
Proof. repeat split. Qed.

(** C1. [equiv] is true exactly when the five fields of the normalised
    operands are equal and the ports match; ports match when both are
    absent, both are the same, or one is absent and the other is the
    default of its scheme.  With port [0] on one side and the default port
    on the other the code answers true although both ports are explicit
    and differ: the test [_self.port and not _other.port] takes [0] for an
    absent port. *)
Theorem equiv_port_zero_matches_default :
  let u := URL_init (Some "http") (Some "x") (Some 0%Z) "/a" "" "" None None in
  let v := URL_init (Some "http") (Some "x") (Some 80%Z) "/a" "" "" None None in
  Obj.value (Obj.equiv 0 (Obj.AUrl 1) [u; v]) = Some true /\
  same_fields (normalise u) (normalise v) /\
  ~ ports_match (normalise u) (normalise v).
Proof.
  split; [reflexivity|]. split; [repeat split|].
  intros [[H _] | [(p & H1 & H2) | [(p & _ & H & _) | (p & _ & H & _)]]];
    simpl in *; congruence.
Qed.

(** C2. [equiv] leaves both operands as they were and answers the same
    when called again.  In the code [parse] returns the very object it is
    given, so both operands are normalised in place: after the call the
    fragment is gone, the query is reordered and the path is re-escaped;
    a second call on the same pair normalises once more and here answers
    true where the first answered false. *)
Theorem equiv_mutates_operands :
  let u := URL_init (Some "http") (Some "x") None "/a/%2E%2E/b" "" "b=1&a=2" (Some "top") None in
  let v := URL_init (Some "http") (Some "x") None "/b" "" "a=2&b=1" None None in
  exists u1 v1 u2 v2,
    Obj.equiv 0 (Obj.AUrl 1) [u; v] = Obj.Done false [u1; v1] /\
    fragment u = Some "top" /\ fragment u1 = None /\
    query u = "b=1&a=2" /\ query u1 = "a=2&b=1" /\
    path u = "/a/%2E%2E/b" /\ path u1 = "/a/../b" /\
    Obj.equiv 0 (Obj.AUrl 1) [u1; v1] = Obj.Done true [u2; v2].
Proof.
  do 4 eexists. split; [reflexivity|]. repeat split.
Qed.

(** ** Parsing and construction *)

(** A text [urlparse] cannot split: its exception leaves [parse], and
    [equiv] with it raises before any object is touched. *)
Lemma parse_unparsed_raises (e : exn) (self : Obj.ref) (h : Obj.store) :
  Obj.parse (Obj.AUnparsed e) h = Obj.Raised e /\
  Obj.equiv self (Obj.AUnparsed e) h = Obj.Raised e.
Proof. split; reflexivity. Qed.

(** The user information [parse] assembles: the user name, with [':']
    and the password when both are non-empty. *)
Lemma parse_text_userinfo (parsed : ParseResult) :
  userinfo (parse_text parsed) =
  match p_username parsed, p_password parsed with
  | Some a, Some b =>
      if nonempty a && nonempty b then Some (a ++ ":" ++ b)%string
      else p_username parsed
  | _, _ => p_username parsed
  end.
Proof.
  unfold parse_text, URL_init; cbn [userinfo].
  destruct (p_username parsed) as [a|], (p_password parsed) as [b|];
    cbn [truthy_str]; try reflexivity.
  now rewrite andb_false_r.
Qed.

(** C9. When reading the port of the parsed text raises [ValueError],
    [parse] does not raise: it returns a new URL whose port is absent and
    whose other components are those of the text, each stored as the
    constructor stores it; it is the URL made for the same text with a
    valid port, but for the port. *)
Theorem parse_invalid_port_is_absent
    (sch : string) (hn : option string) (pa pr q f : string)
    (un pw : option string) (p : option Z) (h : Obj.store) :
  let bad := mkParsed sch hn PortValueError pa pr q f un pw in
  let good := mkParsed sch hn (PortIs p) pa pr q f un pw in
  Obj.parse (Obj.AText bad) h = Obj.Done (length h) (h ++ [parse_text bad]) /\
  port (parse_text bad) = None /\
  scheme (parse_text bad) = Some sch /\
  host (parse_text bad) = hn /\
  path (parse_text bad) = (if nonempty pa then pa else "/") /\
  params (parse_text bad)
    = Re.strip_ends ";" (Re.squeeze ";" (Re.strip_leading ";" pr)) /\
  query (parse_text bad)
    = Re.strip_ends "&" (Re.squeeze "&" (Re.strip_leading "?" q)) /\
  fragment (parse_text bad) = Some f /\
  userinfo (parse_text bad)
    = match un, pw with
      | Some a, Some b =>
          if nonempty a && nonempty b then Some (a ++ ":" ++ b)%string else un
      | _, _ => un
      end /\
  port (parse_text good) = p /\
  parse_text bad = without_port (parse_text good).
Proof.
  intros bad good.
  split; [reflexivity|]. split; [reflexivity|]. split; [reflexivity|].
  split; [reflexivity|]. split; [reflexivity|]. split; [reflexivity|].
  split; [reflexivity|]. split; [reflexivity|].
  split; [apply (parse_text_userinfo bad)|].
  split; reflexivity.
Qed.

Lemma strip_leading_run (c : ascii) (n : nat) (s : string) :
  Re.strip_leading c (run_of c n ++ s) = Re.strip_leading c s.
Proof.
  induction n as [|k IH]; [reflexivity|].
  simpl. now rewrite Ascii.eqb_refl.
Qed.

Lemma strip_leading_done (c : ascii) (s : string) :
  starts_with c (Re.strip_leading c s) = false.
Proof.
  induction s as [|x r IH]; [reflexivity|].
  simpl. destruct (Ascii.eqb x c) eqn:E; [exact IH | simpl; exact E].
Qed.

(** C10. The constructor strips every leading ['?'] from the query before
    the ['&'] separators are normalised, so ["?a=1&b=2"] is stored as
    ["a=1&b=2"]; a leading ['?'] of the params or of the path stays, and
    the other fields are stored as given. *)
Theorem init_strips_leading_question_marks
    (sch hst : option string) (p : option Z) (pa pr q : string)
    (f ui : option string) (n : nat) :
  query (URL_init sch hst p pa pr (run_of "?" n ++ q) f ui)
    = query (URL_init sch hst p pa pr q f ui) /\
  query (URL_init sch hst p pa pr q f ui)
    = Re.strip_ends "&" (Re.squeeze "&" (Re.strip_leading "?" q)) /\
  starts_with "?" (Re.strip_leading "?" q) = false /\
  query (URL_init sch hst p pa pr "?a=1&b=2" f ui) = "a=1&b=2" /\
  params (URL_init sch hst p pa ("?" ++ pr) q f ui)
    = ("?" ++ Re.drop_at_dollar ";" (Re.squeeze ";" pr))%string /\
  path (URL_init sch hst p ("?" ++ pa) pr q f ui) = ("?" ++ pa)%string /\
  scheme (URL_init sch hst p pa pr q f ui) = sch /\
  host (URL_init sch hst p pa pr q f ui) = hst /\
  port (URL_init sch hst p pa pr q f ui) = p /\
  fragment (URL_init sch hst p pa pr q f ui) = f /\
  userinfo (URL_init sch hst p pa pr q f ui) = ui.
Proof.
  split.
  { unfold URL_init; cbn [query]. now rewrite strip_leading_run. }
  split; [reflexivity|].
  split; [apply strip_leading_done|].
  repeat split.
Qed.

(** ** Filtering parameters *)

Lemma filter_andb {A : Type} (f g : A -> bool) (l : list A) :
  filter (fun x => f x && g x) l = filter g (filter f l).
Proof.
  induction l as [|x r IH]; [reflexivity|].
  simpl. destruct (f x); simpl; [destruct (g x)|]; now rewrite IH.
Qed.

Lemma filter_all {A : Type} (f : A -> bool) (l : list A) :
  Forall (fun x => f x = true) l -> filter f l = l.
Proof.
  induction 1 as [|x r Hx Hr IH]; [reflexivity|].
  simpl. now rewrite Hx, IH.
Qed.


Section Segments.
Variable d : ascii.

Lemma segments_no_delim (s : string) : Forall (no_delim d) (segments d s).
Proof.
  apply Forall_forall. intros x Hx. apply filter_In in Hx as [Hx _].
  revert x Hx. apply Forall_forall, split_no_delim.
Qed.

Lemma segments_nonempty (s : string) :
  Forall (fun x => nonempty x = true) (segments d s).
Proof.
  apply Forall_forall. intros x Hx. now apply filter_In in Hx as [_ Hx].
Qed.

(** Joining non-empty segments and splitting again gives them back. *)
Lemma segments_join (l : list string) :
  Forall (no_delim d) l -> Forall (fun x => nonempty x = true) l ->
  segments d (join d l) = l.
Proof.
  intros Hnd Hne. unfold segments. destruct l as [|x r]; [reflexivity|].
  rewrite split_join by (discriminate || assumption).
  now apply filter_all.
Qed.

Lemma Forall_filter {A : Type} (P : A -> Prop) (f : A -> bool) (l : list A) :
  Forall P l -> Forall P (filter f l).
Proof.
  induction 1 as [|x r Hx Hr IH]; [constructor|].
  simpl. destruct (f x); [now constructor | assumption].
Qed.

(** One field after [filter_params]: the kept segments, in their order. *)
Lemma filter_field_segments (function : string -> string -> bool) (s : string) :
  filter_field d function s = join d (filter (keep function) (segments d s)).
Proof. unfold filter_field, segments. now rewrite filter_andb. Qed.

Lemma segments_filter_field (function : string -> string -> bool) (s : string) :
  segments d (filter_field d function s) = filter (keep function) (segments d s).
Proof.
  rewrite filter_field_segments. apply segments_join.
  - apply Forall_filter, segments_no_delim.
  - apply Forall_filter, segments_nonempty.
Qed.

End Segments.








(** ** Percent-decoding of malformed text *)

Lemma is_hex_digit_value (c : ascii) :
  is_hex_digit c = match hex_value c with Some _ => true | None => false end.
Proof. destruct c as [[] [] [] [] [] [] [] []]; reflexivity. Qed.

Lemma hex_pair_digits (a b : ascii) :
  is_hex_digit a && is_hex_digit b =
  match hex_pair a b with Some _ => true | None => false end.
Proof.
  rewrite !is_hex_digit_value. unfold hex_pair.
  destruct (hex_value a), (hex_value b); reflexivity.
Qed.

(** A character that does not open an escape yields itself. *)
Lemma unquote_to_bytes_literal (c : ascii) (s : string) :
  Ascii.eqb c percent && two_hex_digits s = false ->
  unquote_to_bytes (String c s) = String c (unquote_to_bytes s).
Proof.
  intros H. destruct s as [|a [|b t]]; try reflexivity.
  cbn [unquote_to_bytes]. destruct (Ascii.eqb c percent); [|reflexivity].
  cbn [two_hex_digits andb] in H. rewrite hex_pair_digits in H.
  now destruct (hex_pair a b).
Qed.

Lemma is_hex_digit_percent : is_hex_digit percent = false.
Proof. reflexivity. Qed.

Lemma two_hex_digits_app (r w : string) :
  starts_with percent w = true ->
  two_hex_digits r = false -> two_hex_digits (r ++ w) = false.
Proof.
  intros Hw Hr. destruct w as [|x w']; [discriminate|].
  simpl in Hw. apply Ascii.eqb_eq in Hw. subst x.
  destruct r as [|a [|b t]]; cbn [append two_hex_digits].
  - destruct w'; [reflexivity|]. now rewrite is_hex_digit_percent.
  - now rewrite is_hex_digit_percent, andb_false_r.
  - exact Hr.
Qed.

(** Text without a well-formed escape passes through as it is, up to the
    next ['%']. *)
Lemma unquote_to_bytes_app_literal (s w : string) :
  has_escape s = false -> starts_with percent w = true ->
  unquote_to_bytes (s ++ w) = (s ++ unquote_to_bytes w)%string.
Proof.
  intros Hs Hw. induction s as [|c r IH]; [reflexivity|].
  cbn [has_escape] in Hs. apply orb_false_iff in Hs as [H1 H2].
  cbn [append]. rewrite unquote_to_bytes_literal; [now rewrite IH|].
  destruct (Ascii.eqb c percent); [|reflexivity].
  cbn [andb] in *. now apply two_hex_digits_app.
Qed.

Lemma unquote_to_bytes_no_escape (s : string) :
  has_escape s = false -> unquote_to_bytes s = s.
Proof.
  induction s as [|c r IH]; [reflexivity|]. intros Hs.
  cbn [has_escape] in Hs. apply orb_false_iff in Hs as [H1 H2].
  rewrite unquote_to_bytes_literal by assumption. now rewrite IH.
Qed.

Lemma decode_cons_ascii (x : ascii) (r : string) :
  kind x = KAscii -> decode (String x r) = String x (decode r).
Proof.
  intros K. unfold decode. cbn [decode_from step]. unfold first.
  now rewrite K.
Qed.

(** A byte that is no ASCII character, alone at the end, is replaced. *)
Lemma decode_single_non_ascii (x : ascii) :
  kind x <> KAscii -> decode (String x EmptyString) = REPLACEMENT.
Proof.
  intros K. unfold decode. cbn [decode_from step]. unfold first.
  destruct (kind x); try reflexivity. congruence.
Qed.

Lemma nth_error_new (h : Obj.store) (u : URL) :
  nth_error (h ++ [u]) (length h) = Some u.
Proof. induction h as [|x r IH]; [reflexivity | exact IH]. Qed.

Lemma put_new (h : Obj.store) (u v : URL) :
  Obj.put (h ++ [u]) (length h) v = h ++ [v].
Proof. induction h as [|x r IH]; [reflexivity|]. simpl. now rewrite IH. Qed.

(** A method without a raising body returns on every object. *)
Lemma method_returns (f : URL -> URL) (h : Obj.store) (u : URL) :
  Obj.method f (length h) (h ++ [u]) = Obj.Done (length h) (h ++ [f u]).
Proof. unfold Obj.method. now rewrite nth_error_new, put_new. Qed.

(** C8. Percent-decoding does not reject malformed input.  A text [s] in
    which no ['%'] is followed by two hexadecimal digits is decoded to
    itself.  A ['%'] followed by two hexadecimal digits is one unit: it
    yields the one byte the digits write, and the bytes are then read as
    UTF-8 with [errors='replace'], so that an ASCII byte is its character
    and a byte that cannot stand alone is replaced by U+FFFD instead of
    raising.  [unescape] and the decode step of [escape] use this
    decoding, and [unescape] returns on every object. *)
Theorem unquote_passes_malformed_through
    (s t : string) (a b : ascii) (u : URL) (h : Obj.store) :
  has_escape s = false -> utf8_ok s = true ->
  is_hex_digit a = true -> is_hex_digit b = true ->
  unquote s = s /\
  (exists x, hex_pair a b = Some x /\
     unquote_to_bytes (s ++ String "%" (String a (String b t)))
       = (s ++ String x (unquote_to_bytes t))%string /\
     unquote (s ++ String "%" (String a (String b t)))
       = (s ++ decode (String x (unquote_to_bytes t)))%string /\
     (kind x = KAscii ->
      unquote (s ++ String "%" (String a (String b t)))
        = (s ++ String x (unquote t))%string) /\
     (kind x <> KAscii ->
      unquote (s ++ String "%" (String a (String b EmptyString)))
        = (s ++ REPLACEMENT)%string)) /\
  path (unescape u) = unquote (path u) /\
  path (escape u) = quote (unquote (path u)) PATH /\
  query (escape u) = quote (unquote (query u)) QUERY /\
  params (escape u) = quote (unquote (params u)) QUERY /\
  Obj.unescape (length h) (h ++ [u]) = Obj.Done (length h) (h ++ [unescape u]).
Proof.
  intros Hs Hok Ha Hb.
  split.
  { unfold unquote. rewrite unquote_to_bytes_no_escape by assumption.
    now apply decode_ok. }
  split.
  { pose proof (hex_pair_digits a b) as Hp. rewrite Ha, Hb in Hp.
    destruct (hex_pair a b) as [x|] eqn:E; [|discriminate].
    assert (forall w, unquote_to_bytes (s ++ String "%" (String a (String b w)))
                      = (s ++ String x (unquote_to_bytes w))%string) as Hbytes.
    { intros w. rewrite unquote_to_bytes_app_literal by (assumption || reflexivity).
      f_equal. now apply unquote_to_bytes_escape_unit. }
    assert (forall w, unquote (s ++ String "%" (String a (String b w)))
                      = (s ++ decode (String x (unquote_to_bytes w)))%string) as Hdec.
    { intros w. unfold unquote. rewrite Hbytes. now apply decode_app_ok. }
    exists x. split; [reflexivity|]. split; [apply Hbytes|].
    split; [apply Hdec|]. split.
    - intros K. rewrite Hdec. now rewrite decode_cons_ascii.
    - intros K. rewrite Hdec. cbn [unquote_to_bytes].
      now rewrite decode_single_non_ascii. }
  repeat split; apply method_returns.
Qed.

Lemma unquote_passes_malformed_through_witness :
  has_escape "100%-%4-%zz" = false /\ utf8_ok "100%-%4-%zz" = true /\
  is_hex_digit "E" = true /\ is_hex_digit "9" = true /\
  unquote "100%-%4-%zz" = "100%-%4-%zz".
Proof.
  split; [reflexivity|]. split; [reflexivity|].
  split; [reflexivity|]. split; [reflexivity|].
  exact (proj1 (unquote_passes_malformed_through "100%-%4-%zz" "b" "E" "9"
                  (URL_init None None None "" "" "" None None) []
                  eq_refl eq_refl eq_refl eq_refl)).
Defined.

(** ** The invariant of the data model *)

Lemma semicolon_not_newline : ";"%char <> Re.newline.
Proof. discriminate. Qed.

Lemma ampersand_not_newline : "&"%char <> Re.newline.
Proof. discriminate. Qed.

(** The constructor establishes the invariant. *)
Lemma init_invariant (sch hst : option string) (p : option Z)
    (pa pr q : string) (f ui : option string) :
  invariant (URL_init sch hst p pa pr q f ui).
Proof.
  unfold invariant, path_nonempty, separators_clean, URL_init;
    cbn [path params query].
  split; [destruct pa; discriminate|].
  split.
  - apply init_field_clean, semicolon_not_newline.
  - apply init_field_clean, ampersand_not_newline.
Qed.

Lemma remove_default_port_frame (u u' : URL) :
  remove_default_port u = Ok u' ->
  path u' = path u /\ params u' = params u /\ query u' = query u.
Proof.
  unfold remove_default_port.
  destruct (truthy_port (port u) && truthy_str (scheme u)); [|now intros [= <-]].
  destruct (scheme u) as [s|]; [|now intros [= <-]].
  destruct (PORTS_item s) as [d|e]; [|discriminate].
  destruct (opt_eqb Z.eqb (port u) (Some d)); now intros [= <-].
Qed.

Lemma string_nonempty (s : string) : nonempty s = true <-> s <> EmptyString.
Proof. destruct s; simpl; split; congruence. Qed.

(** Every operation but [abspath] keeps the path non-empty. *)
Lemma run_op_path (o : op) (u u' : URL) :
  run_op o u = Ok u' -> calls_abspath o = false ->
  path_nonempty u -> path_nonempty u'.
Proof.
  unfold path_nonempty. intros Hr Ho Hp.
  destruct o; simpl in Hr; try discriminate Ho;
    try (injection Hr as <-; exact Hp).
  - injection Hr as <-. cbn [escape path].
    apply string_nonempty. rewrite nonempty_quote, nonempty_unquote.
    now apply string_nonempty.
  - injection Hr as <-. cbn [unescape path].
    apply string_nonempty. rewrite nonempty_unquote. now apply string_nonempty.
  - apply remove_default_port_frame in Hr as (-> & _ & _). exact Hp.
Qed.

(** Every operation but [escape] keeps [params] and [query] free of stray
    separators. *)
Lemma run_op_separators (o : op) (u u' : URL) :
  run_op o u = Ok u' -> calls_escape o = false ->
  separators_clean u -> separators_clean u'.
Proof.
  unfold separators_clean. intros Hr Ho [Hp Hq].
  destruct o; simpl in Hr; try discriminate Ho;
    try (injection Hr as <-; now split).
  - injection Hr as <-. cbn [canonical params query].
    split; now apply canonical_field_clean.
  - injection Hr as <-. unfold deparam; cbn [filter_params params query].
    split; apply filter_field_clean.
  - injection Hr as <-. cbn [filter_params params query].
    split; apply filter_field_clean.
  - apply remove_default_port_frame in Hr as (_ & -> & ->). now split.
Qed.

Lemma run_ops_path (os : list op) (u u' : URL) :
  run_ops os u = Ok u' -> existsb calls_abspath os = false ->
  path_nonempty u -> path_nonempty u'.
Proof.
  revert u. induction os as [|o r IH]; intros u Hr Ho Hp.
  - now injection Hr as <-.
  - simpl in Hr, Ho. apply orb_false_iff in Ho as [Ho Hrest].
    destruct (run_op o u) as [u1|e] eqn:E; [|discriminate].
    apply (IH u1); [assumption | assumption |].
    now apply (run_op_path o u).
Qed.

Lemma run_ops_separators (os : list op) (u u' : URL) :
  run_ops os u = Ok u' -> existsb calls_escape os = false ->
  separators_clean u -> separators_clean u'.
Proof.
  revert u. induction os as [|o r IH]; intros u Hr Ho Hp.
  - now injection Hr as <-.
  - simpl in Hr, Ho. apply orb_false_iff in Ho as [Ho Hrest].
    destruct (run_op o u) as [u1|e] eqn:E; [|discriminate].
    apply (IH u1); [assumption | assumption |].
    now apply (run_op_separators o u).
Qed.

(** C5, as stated, fails: [abspath] empties the path ["/../"], and
    [escape] decodes ["%26"] into a leading ['&'] of the query. *)
Lemma invariant_broken_by_abspath_and_escape :
  let u := URL_init (Some "http") (Some "x") None "/../" "" "%26a" None None in
  invariant u /\
  run_ops [Abspath] u = Ok (abspath u) /\ path (abspath u) = "" /\
  ~ invariant (abspath u) /\
  run_ops [Escape] u = Ok (escape u) /\ query (escape u) = "&a" /\
  ~ invariant (escape u).
Proof.
  intros u. split; [apply init_invariant|].
  repeat split.
  - intros [H _]. now apply H.
  - intros [_ [_ H]]. discriminate H.
Qed.

(** C5. A URL made by the constructor and taken through any chain of
    normalising calls that returns has a non-empty path as long as the
    chain does not call [abspath], and has [params] and [query] without
    leading, trailing or doubled separator as long as the chain does not
    call [escape]. *)
Theorem invariant_of_reachable
    (sch hst : option string) (p : option Z) (pa pr q : string)
    (f ui : option string) (os : list op) (u : URL) :
  run_ops os (URL_init sch hst p pa pr q f ui) = Ok u ->
  (existsb calls_abspath os = false -> path_nonempty u) /\
  (existsb calls_escape os = false -> separators_clean u).
Proof.
  intros Hr. destruct (init_invariant sch hst p pa pr q f ui) as [Hp Hs].
  split; intros Ho.
  - now apply (run_ops_path os _ u Hr Ho).
  - now apply (run_ops_separators os _ u Hr Ho).
Qed.

Lemma invariant_of_reachable_witness :
  let os := [Canonical; Deparam ["B"]; Unescape; RemoveDefaultPort; Defrag] in
  let u0 := URL_init (Some "http") (Some "x") (Some 80%Z) "" ";;z;;y;"
              "?&&b=1&&a=2&" (Some "top") None in
  let u := mkURL (Some "http") (Some "x") None "/" "y;z" "a=2" None None in
  run_ops os u0 = Ok u /\ path_nonempty u /\ separators_clean u.
Proof.
  intros os u0 u.
  assert (run_ops os u0 = Ok u) as Hr by reflexivity.
  split; [exact Hr|].
  destruct (invariant_of_reachable (Some "http") (Some "x") (Some 80%Z) ""
              ";;z;;y;" "?&&b=1&&a=2&" (Some "top") None os u Hr) as [Hp Hs].
  split; [apply Hp | apply Hs]; reflexivity.
Defined.

(** * Further properties of the class *)

(** ** The store *)

Lemma nth_error_put_same (h : Obj.store) (r : Obj.ref) (u v : URL) :
  nth_error h r = Some u -> nth_error (Obj.put h r v) r = Some v.
Proof.
  revert r. induction h as [|x t IH]; intros [|r] H; try discriminate.
  - reflexivity.
  - simpl in *. now apply IH.
Qed.

Lemma nth_error_put_other (h : Obj.store) (r r' : Obj.ref) (v : URL) :
  r <> r' -> nth_error (Obj.put h r v) r' = nth_error h r'.
Proof.
  revert r r'. induction h as [|x t IH]; intros [|r] [|r'] H;
    try reflexivity; try congruence.
  simpl. apply IH. congruence.
Qed.

Lemma put_put (h : Obj.store) (r : Obj.ref) (u v : URL) :
  Obj.put (Obj.put h r u) r v = Obj.put h r v.
Proof.
  revert r. induction h as [|x t IH]; intros [|r]; try reflexivity.
  simpl. now rewrite IH.
Qed.

Lemma length_put (h : Obj.store) (r : Obj.ref) (v : URL) :
  length (Obj.put h r v) = length h.
Proof.
  revert r. induction h as [|x t IH]; intros [|r]; try reflexivity.
  simpl. now rewrite IH.
Qed.

Lemma method_on (f : URL -> URL) (h : Obj.store) (r : Obj.ref) (u : URL) :
  nth_error h r = Some u -> Obj.method f r h = Obj.Done r (Obj.put h r (f u)).
Proof. unfold Obj.method. now intros ->. Qed.

Lemma normalise_call_on (h : Obj.store) (r : Obj.ref) (u : URL) :
  nth_error h r = Some u ->
  normalise_call r h = Obj.Done r (Obj.put h r (normalise u)).
Proof.
  intros H. unfold normalise_call, Obj.bind, Obj.canonical, Obj.defrag,
    Obj.abspath, Obj.escape.
  rewrite (method_on _ h r u H).
  rewrite (method_on _ _ r _ (nth_error_put_same h r u _ H)), put_put.
  rewrite (method_on _ _ r _ (nth_error_put_same h r u _ H)), put_put.
  rewrite (method_on _ _ r _ (nth_error_put_same h r u _ H)), put_put.
  reflexivity.
Qed.

Lemma equiv_unfold (self : Obj.ref) (other : Obj.pyarg) (h : Obj.store) :
  Obj.equiv self other h =
  Obj.bind (Obj.parse other) (fun o0 =>
  Obj.bind (normalise_call o0) (fun o =>
  Obj.bind (normalise_call self) (fun s =>
  Obj.bind (Obj.load s) (fun us =>
  Obj.bind (Obj.load o) (fun uo => Obj.ret (equiv_compare us uo)))))) h.
Proof.
  unfold Obj.equiv, normalise_call, Obj.bind.
  destruct (Obj.parse other h) as [a0 h0| |]; try reflexivity.
  destruct (Obj.canonical a0 h0) as [a1 h1| |]; try reflexivity.
  destruct (Obj.defrag a1 h1) as [a2 h2| |]; try reflexivity.
  destruct (Obj.abspath a2 h2) as [a3 h3| |]; try reflexivity.
  destruct (Obj.escape a3 h3) as [a4 h4| |]; try reflexivity.
  unfold Obj.parse at 1, Obj.ret at 1.
  destruct (Obj.canonical self h4) as [b1 k1| |]; try reflexivity.
  destruct (Obj.defrag b1 k1) as [b2 k2| |]; try reflexivity.
  destruct (Obj.abspath b2 k2) as [b3 k3| |]; try reflexivity.
Qed.

(** ** [equiv] on any store *)

Lemma put_comm (h : Obj.store) (r r' : Obj.ref) (u v : URL) :
  r <> r' -> Obj.put (Obj.put h r u) r' v = Obj.put (Obj.put h r' v) r u.
Proof.
  revert r r'. induction h as [|x t IH]; intros [|r] [|r'] H;
    try reflexivity; try congruence.
  simpl. rewrite IH; [reflexivity | congruence].
Qed.

Lemma load_on (h : Obj.store) (r : Obj.ref) (u : URL) :
  nth_error h r = Some u -> Obj.load r h = Obj.Done u h.
Proof. unfold Obj.load. now intros ->. Qed.

Lemma opt_eqb_sym {A : Type} (eqb : A -> A -> bool) (a b : option A) :
  (forall x y, eqb x y = eqb y x) -> opt_eqb eqb a b = opt_eqb eqb b a.
Proof. intros H. destruct a, b; simpl; auto. Qed.

Lemma equiv_compare_sym (s o : URL) : equiv_compare s o = equiv_compare o s.
Proof.
  unfold equiv_compare.
  rewrite (opt_eqb_sym String.eqb (scheme s)) by apply String.eqb_sym.
  rewrite (opt_eqb_sym String.eqb (host s)) by apply String.eqb_sym.
  rewrite (String.eqb_sym (path s)), (String.eqb_sym (params s)),
    (String.eqb_sym (query s)).
  destruct (opt_eqb String.eqb (scheme o) (scheme s) &&
            opt_eqb String.eqb (host o) (host s) &&
            String.eqb (path o) (path s) && String.eqb (params o) (params s) &&
            String.eqb (query o) (query s)); [|reflexivity].
  destruct (truthy_port (port s)), (truthy_port (port o)); cbn [negb andb];
    try reflexivity; apply opt_eqb_sym, Z.eqb_sym.
Qed.

(** The run of [equiv] between two different objects of a store. *)
Lemma equiv_run_on_two
    (h : Obj.store) (r1 r2 : Obj.ref) (u v : URL) :
  r1 <> r2 -> nth_error h r1 = Some u -> nth_error h r2 = Some v ->
  let h' := Obj.put (Obj.put h r2 (normalise v)) r1 (normalise u) in
  Obj.equiv r1 (Obj.AUrl r2) h
    = Obj.Done (equiv_compare (normalise u) (normalise v)) h' /\
  nth_error h' r1 = Some (normalise u) /\
  nth_error h' r2 = Some (normalise v) /\
  (forall r, r <> r1 -> r <> r2 -> nth_error h' r = nth_error h r).
Proof.
  intros Hne H1 H2 h'.
  assert (nth_error (Obj.put h r2 (normalise v)) r1 = Some u) as H1'.
  { rewrite nth_error_put_other by congruence. exact H1. }
  assert (nth_error h' r1 = Some (normalise u)) as G1.
  { unfold h'. now apply (nth_error_put_same _ r1 u). }
  assert (nth_error h' r2 = Some (normalise v)) as G2.
  { unfold h'. rewrite nth_error_put_other by congruence.
    now apply (nth_error_put_same _ r2 v). }
  split; [|split; [exact G1 | split; [exact G2|]]].
  - rewrite equiv_unfold. unfold Obj.bind, Obj.parse, Obj.ret.
    rewrite (normalise_call_on h r2 v H2).
    rewrite (normalise_call_on _ r1 u H1'). fold h'.
    now rewrite (load_on h' r1 _ G1), (load_on h' r2 _ G2).
  - intros r Hr1 Hr2. unfold h'.
    rewrite !nth_error_put_other by congruence. reflexivity.
Qed.

(** X1. Between two different objects of any store, [equiv] answers the
    comparison of the two normalised operands, leaves both operands
    normalised in the store and changes no other object. *)
Theorem equiv_between_objects
    (h : Obj.store) (r1 r2 : Obj.ref) (u v : URL) :
  r1 <> r2 -> nth_error h r1 = Some u -> nth_error h r2 = Some v ->
  let h' := Obj.put (Obj.put h r2 (normalise v)) r1 (normalise u) in
  Obj.equiv r1 (Obj.AUrl r2) h
    = Obj.Done (equiv_compare (normalise u) (normalise v)) h' /\
  nth_error h' r1 = Some (normalise u) /\
  nth_error h' r2 = Some (normalise v) /\
  (forall r, r <> r1 -> r <> r2 -> nth_error h' r = nth_error h r).
Proof. exact (equiv_run_on_two h r1 r2 u v). Qed.

Lemma equiv_between_objects_witness :
  let u := URL_init (Some "http") (Some "x") (Some 80%Z) "/a/../b" "" "b=1&a=2" (Some "f") None in
  let v := URL_init (Some "http") (Some "x") None "/b" "" "a=2&b=1" None None in
  let w := URL_init (Some "ftp") (Some "y") None "/./" "" "z&y" None None in
  Obj.equiv 2 (Obj.AUrl 0) [v; w; u]
    = Obj.Done true [normalise v; w; normalise u].
Proof.
  intros u v w.
  exact (proj1 (equiv_between_objects [v; w; u] 2 0 u v
                  (fun e : 2 = 0 => O_S 1 (eq_sym e)) eq_refl eq_refl)).
Defined.

(** X2. [u.equiv(u)] is true on every object, and leaves the object
    normalised twice. *)
Theorem equiv_with_itself (h : Obj.store) (r : Obj.ref) (u : URL) :
  nth_error h r = Some u ->
  Obj.equiv r (Obj.AUrl r) h
    = Obj.Done true (Obj.put h r (normalise (normalise u))).
Proof.
  intros H. rewrite equiv_unfold. unfold Obj.bind, Obj.parse, Obj.ret.
  rewrite (normalise_call_on h r u H).
  rewrite (normalise_call_on _ r _ (nth_error_put_same h r u _ H)), put_put.
  rewrite !(load_on _ r _ (nth_error_put_same h r u _ H)).
  now rewrite equiv_compare_refl.
Qed.

Lemma equiv_with_itself_witness :
  let u := URL_init (Some "http") (Some "x") (Some 0%Z) "/a/%2E%2E/b" "" "" None None in
  Obj.equiv 0 (Obj.AUrl 0) [u] = Obj.Done true [normalise (normalise u)].
Proof. intros u. exact (equiv_with_itself [u] 0 u eq_refl). Defined.

(** X3. [equiv] is symmetric: between two different objects, [u.equiv(v)]
    and [v.equiv(u)] return the same answer and leave the same store. *)
Theorem equiv_symmetric (h : Obj.store) (r1 r2 : Obj.ref) (u v : URL) :
  r1 <> r2 -> nth_error h r1 = Some u -> nth_error h r2 = Some v ->
  Obj.equiv r1 (Obj.AUrl r2) h = Obj.equiv r2 (Obj.AUrl r1) h.
Proof.
  intros Hne H1 H2.
  destruct (equiv_run_on_two h r1 r2 u v Hne H1 H2) as [-> _].
  destruct (equiv_run_on_two h r2 r1 v u (fun e => Hne (eq_sym e)) H2 H1)
    as [-> _].
  rewrite equiv_compare_sym. f_equal. apply put_comm. congruence.
Qed.

Lemma equiv_symmetric_witness :
  let u := URL_init (Some "http") (Some "x") (Some 80%Z) "/a" "" "" None None in
  let v := URL_init (Some "http") (Some "x") None "/a" "" "" None None in
  Obj.equiv 0 (Obj.AUrl 1) [u; v] = Obj.equiv 1 (Obj.AUrl 0) [u; v].
Proof.
  intros u v.
  exact (equiv_symmetric [u; v] 0 1 u v (O_S 0) eq_refl eq_refl).
Defined.

(** X4. [equiv] with a text argument parses the text into one new object,
    normalises [self] in place all the same, and answers the comparison
    of the two normalised URLs. *)
Theorem equiv_with_text_argument
    (h : Obj.store) (r : Obj.ref) (u : URL) (parsed : ParseResult) :
  nth_error h r = Some u ->
  Obj.equiv r (Obj.AText parsed) h
    = Obj.Done (equiv_compare (normalise u) (normalise (parse_text parsed)))
        (Obj.put h r (normalise u) ++ [normalise (parse_text parsed)]).
Proof.
  intros H.
  assert (r < length h)%nat as Hlt by (apply nth_error_Some; congruence).
  assert (forall x y, Obj.put (h ++ [x]) r y = Obj.put h r y ++ [x]) as Hput.
  { clear H. revert r Hlt. induction h as [|a t IH]; intros r Hlt x y;
      [simpl in Hlt; lia|].
    destruct r as [|r]; [reflexivity|]. simpl.
    rewrite IH by (simpl in Hlt; lia). reflexivity. }
  rewrite equiv_unfold. unfold Obj.bind, Obj.parse, Obj.new.
  rewrite (normalise_call_on _ (length h) _ (nth_error_new h _)), put_new.
  assert (nth_error (h ++ [normalise (parse_text parsed)]) r = Some u) as H'.
  { rewrite nth_error_app1 by exact Hlt. exact H. }
  rewrite (normalise_call_on _ r u H'), Hput.
  rewrite (load_on _ r (normalise u)).
  2:{ rewrite nth_error_app1 by (rewrite length_put; exact Hlt).
      now apply (nth_error_put_same h r u). }
  rewrite (load_on _ (length h) (normalise (parse_text parsed))).
  2:{ rewrite <- (length_put h r (normalise u)). apply nth_error_new. }
  reflexivity.
Qed.

Lemma equiv_with_text_argument_witness :
  let u := URL_init (Some "http") (Some "x") None "/a" "" "b=1&a=2" (Some "f") None in
  let p := parsed_of "http" "x" None "/a" "a=2&b=1" in
  Obj.equiv 0 (Obj.AText p) [u]
    = Obj.Done true [normalise u; normalise (parse_text p)].
Proof. intros u p. exact (equiv_with_text_argument [u] 0 u p eq_refl). Defined.

(** ** Exact equality *)

Lemma URL_eq_iff (a b : URL) : URL_eq a b = true <-> a = b.
Proof.
  destruct a as [a1 a2 a3 a4 a5 a6 a7 a8], b as [b1 b2 b3 b4 b5 b6 b7 b8].
  unfold URL_eq; cbn [scheme host port path params query fragment userinfo].
  rewrite !andb_true_iff, !opt_str_eqb_eq, !String.eqb_eq, opt_Z_eqb_eq.
  split.
  - intros [[[[[[[-> ->] ->] ->] ->] ->] ->] ->]. reflexivity.
  - intros [= -> -> -> -> -> -> -> ->]. repeat split.
Qed.

(** X5. Exact equality is narrower than equivalence: two objects that are
    [==] are [equiv]. *)
Theorem eq_implies_equiv (h : Obj.store) (r1 r2 : Obj.ref) (u v : URL) :
  r1 <> r2 -> nth_error h r1 = Some u -> nth_error h r2 = Some v ->
  URL_eq u v = true ->
  Obj.value (Obj.equiv r1 (Obj.AUrl r2) h) = Some true.
Proof.
  intros Hne H1 H2 E. apply URL_eq_iff in E. subst v.
  destruct (equiv_run_on_two h r1 r2 u u Hne H1 H2) as [-> _].
  simpl. now rewrite equiv_compare_refl.
Qed.

Lemma eq_implies_equiv_witness :
  let u := URL_init (Some "http") (Some "x") (Some 8080%Z) "/a/../b" "p" "b&a" (Some "f") (Some "me") in
  Obj.value (Obj.equiv 0 (Obj.AUrl 1) [u; copy u]) = Some true.
Proof.
  intros u.
  exact (eq_implies_equiv [u; copy u] 0 1 u (copy u) (O_S 0) eq_refl eq_refl eq_refl).
Defined.

(** ** Copies *)

Lemma strip_leading_id (d : ascii) (s : string) :
  starts_with d s = false -> Re.strip_leading d s = s.
Proof. destruct s as [|c r]; [reflexivity|]. simpl. now intros ->. Qed.

Lemma mem_cons_false (c x : ascii) (r : string) :
  mem c (String x r) = false -> c <> x /\ mem c r = false.
Proof.
  simpl. intros H. apply orb_false_iff in H as [H1 H2].
  split; [now apply Ascii.eqb_neq | assumption].
Qed.

Lemma drop_at_dollar_id (d : ascii) (s : string) :
  ends_with d s = false -> mem Re.newline s = false ->
  Re.drop_at_dollar d s = s.
Proof.
  induction s as [|c r IH]; [reflexivity|]. intros He Hn.
  apply mem_cons_false in Hn as [_ Hn].
  rewrite ends_with_cons in He. cbn [Re.drop_at_dollar].
  destruct (Ascii.eqb c d && Re.at_dollar r) eqn:E.
  - apply andb_true_iff in E as [E1 E2].
    destruct (at_dollar_cases r E2) as [-> | ->]; [congruence|].
    apply mem_cons_false in Hn as [Hn _]. congruence.
  - rewrite IH; [reflexivity | | assumption].
    destruct r; [reflexivity | exact He].
Qed.

Lemma strip_ends_id (d : ascii) (s : string) :
  starts_with d s = false -> ends_with d s = false ->
  mem Re.newline s = false -> Re.strip_ends d s = s.
Proof.
  intros Hs He Hn. destruct s as [|c r]; [reflexivity|].
  unfold Re.strip_ends. simpl in Hs. rewrite Hs.
  now apply drop_at_dollar_id.
Qed.

(** A field the constructor leaves as it is. *)
Lemma init_field_id (d : ascii) (s : string) :
  clean d s = true -> mem Re.newline s = false ->
  Re.strip_ends d (Re.squeeze d (Re.strip_leading d s)) = s.
Proof.
  intros Hc Hn. apply clean_elim in Hc as (H1 & H2 & H3).
  rewrite strip_leading_id, squeeze_no_double by assumption.
  now apply strip_ends_id.
Qed.

(** X6. [copy] runs the constructor again, so the copy equals the
    original when the original has a non-empty path, [params] and [query]
    without stray separators and without newline, and a query that does
    not begin with ['?']. *)
Theorem copy_equals_original (u : URL) :
  path u <> EmptyString ->
  clean ";" (params u) = true -> clean "&" (query u) = true ->
  mem Re.newline (params u) = false -> mem Re.newline (query u) = false ->
  starts_with "?" (query u) = false ->
  copy u = u /\ URL_eq (copy u) u = true.
Proof.
  intros Hp Hc1 Hc2 Hn1 Hn2 Hq.
  assert (copy u = u) as E.
  { destruct u as [sch hst p pa pr q f ui]. unfold copy, URL_init.
    cbn [scheme host port path params query fragment userinfo] in *.
    rewrite (init_field_id ";" pr Hc1 Hn1).
    rewrite (strip_leading_id "?" q Hq).
    assert (Re.strip_ends "&" (Re.squeeze "&" q) = q) as ->.
    { apply clean_elim in Hc2 as (H1 & H2 & H3).
      rewrite squeeze_no_double by assumption. now apply strip_ends_id. }
    destruct pa; [congruence | reflexivity]. }
  split; [exact E | now apply URL_eq_iff].
Qed.

Lemma copy_equals_original_witness :
  let u := mkURL (Some "http") (Some "x") (Some 80%Z) "/a" "p;q" "a=1&b=2" (Some "f") None in
  copy u = u /\ URL_eq (copy u) u = true.
Proof.
  intros u. apply (copy_equals_original u); (discriminate || reflexivity).
Defined.

(** X7. A copy is a new object: normalising the copy leaves the original
    and every other object of the store as they were. *)
Theorem normalised_copy_leaves_original
    (h : Obj.store) (r : Obj.ref) (u : URL) :
  nth_error h r = Some u ->
  Obj.bind (Obj.copy r) normalise_call h
    = Obj.Done (length h) (h ++ [normalise (copy u)]).
Proof.
  intros H. unfold Obj.copy, Obj.bind, Obj.new.
  rewrite (load_on h r u H).
  rewrite (normalise_call_on _ (length h) _ (nth_error_new h _)).
  now rewrite put_new.
Qed.

Lemma normalised_copy_leaves_original_witness :
  let u := URL_init (Some "http") (Some "x") None "/a/../b" "" "b&a" (Some "f") None in
  Obj.bind (Obj.copy 0) normalise_call [u] = Obj.Done 1 [u; normalise (copy u)].
Proof. intros u. exact (normalised_copy_leaves_original [u] 0 u eq_refl). Defined.

(** ** Default ports and equivalence *)

Lemma remove_default_port_cases (u u' : URL) :
  remove_default_port u = Ok u' ->
  u' = u \/
  (u' = without_port u /\ truthy_port (port u) = true /\
   PORTS_get (scheme u) = port u).
Proof.
  unfold remove_default_port.
  destruct (truthy_port (port u) && truthy_str (scheme u)) eqn:T;
    [|intros [= <-]; now left].
  apply andb_true_iff in T as [T1 T2].
  destruct (scheme u) as [s|] eqn:Es; [|intros [= <-]; now left].
  unfold PORTS_item. destruct (dict_get PORTS s) as [d|] eqn:Ed; [|discriminate].
  destruct (opt_eqb Z.eqb (port u) (Some d)) eqn:E; intros [= <-]; [|now left].
  right. apply opt_Z_eqb_eq in E.
  split; [unfold without_port; now rewrite Es|].
  split; [assumption|].
  unfold PORTS_get. now rewrite Ed, E.
Qed.

(** X8. Where [remove_default_port] returns, the URL it leaves is [equiv]
    to the one it was given, and a second call changes nothing more. *)
Theorem remove_default_port_keeps_equiv (u u' : URL) :
  remove_default_port u = Ok u' ->
  equiv_compare (normalise u) (normalise u') = true /\
  remove_default_port u' = Ok u'.
Proof.
  intros H. destruct (remove_default_port_cases u u' H) as [-> | (-> & T & P)].
  - split; [apply equiv_compare_refl | exact H].
  - split; [|reflexivity].
    change (normalise (without_port u)) with (without_port (normalise u)).
    unfold equiv_compare.
    assert (same_fields (normalise u) (without_port (normalise u))) as F
      by (repeat split).
    apply same_fields_eqb in F. rewrite F.
    change (port (normalise u)) with (port u).
    change (port (without_port (normalise u))) with (@None Z).
    change (scheme (normalise u)) with (scheme u).
    rewrite T. cbn [truthy_port negb andb]. rewrite P.
    now apply opt_Z_eqb_eq.
Qed.

Lemma remove_default_port_keeps_equiv_witness :
  let u := URL_init (Some "https") (Some "x") (Some 443%Z) "/a" "" "" None None in
  equiv_compare (normalise u) (normalise (without_port u)) = true /\
  remove_default_port (without_port u) = Ok (without_port u).
Proof.
  intros u. exact (remove_default_port_keeps_equiv u (without_port u) eq_refl).
Defined.

(** ** The order of [canonical] *)

Lemma leb_iff (a b : string) :
  String.leb a b = true <-> a = b \/ String_as_OT.lt a b.
Proof.
  unfold String.leb.
  pose proof (String_as_OT.cmp_eq a b) as He.
  pose proof (String_as_OT.cmp_lt a b) as Hl.
  unfold String_as_OT.cmp in *.
  destruct (String.compare a b) eqn:E.
  - split; [intros _; left; now apply He | reflexivity].
  - split; [intros _; right; now apply Hl | reflexivity].
  - split; [discriminate|]. intros [H | H].
    + apply He in H. discriminate.
    + apply Hl in H. discriminate.
Qed.

Lemma leb_trans (a b c : string) :
  String.leb a b = true -> String.leb b c = true -> String.leb a c = true.
Proof.
  rewrite !leb_iff. intros [-> | H1] [-> | H2]; auto.
  right. exact (String_as_OT.lt_trans _ _ _ H1 H2).
Qed.

Lemma leb_false_flip (a b : string) :
  String.leb a b = false -> String.leb b a = true.
Proof. intros H. destruct (String.leb_total a b) as [E | E]; congruence. Qed.

Lemma insert_comm (x y : string) (l : list string) :
  insert x (insert y l) = insert y (insert x l).
Proof.
  induction l as [|z r IH].
  - simpl. destruct (String.leb x y) eqn:Exy, (String.leb y x) eqn:Eyx;
      try reflexivity.
    + now rewrite (String.leb_antisym x y Exy Eyx).
    + apply leb_false_flip in Exy. congruence.
  - simpl. destruct (String.leb y z) eqn:Eyz, (String.leb x z) eqn:Exz; simpl.
    + destruct (String.leb x y) eqn:Exy, (String.leb y x) eqn:Eyx;
        rewrite ?Eyz, ?Exz; try reflexivity.
      * now rewrite (String.leb_antisym x y Exy Eyx).
      * apply leb_false_flip in Exy. congruence.
    + destruct (String.leb x y) eqn:Exy.
      * rewrite (leb_trans x y z Exy Eyz) in Exz. discriminate.
      * now rewrite Exz, Eyz.
    + destruct (String.leb y x) eqn:Eyx.
      * rewrite (leb_trans y x z Eyx Exz) in Eyz. discriminate.
      * now rewrite Eyz, Exz.
    + now rewrite Exz, Eyz, IH.
Qed.

Lemma insert_perm (x : string) (l : list string) :
  Permutation (insert x l) (x :: l).
Proof.
  induction l as [|y r IH]; [reflexivity|].
  simpl. destruct (String.leb x y); [reflexivity|].
  rewrite IH. apply perm_swap.
Qed.

Lemma sorted_perm (l : list string) : Permutation (sorted l) l.
Proof.
  induction l as [|x r IH]; [reflexivity|].
  simpl. rewrite insert_perm. now constructor.
Qed.

(** [sorted] depends on the elements only, not on their order. *)
Lemma sorted_of_perm (l1 l2 : list string) :
  Permutation l1 l2 -> sorted l1 = sorted l2.
Proof.
  induction 1 as [| x l l' _ IH | x y l | l l' l'' _ IH1 _ IH2].
  - reflexivity.
  - simpl. now rewrite IH.
  - simpl. apply insert_comm.
  - congruence.
Qed.

Lemma canonical_field_split (d : ascii) (s : string) :
  split d (join d (sorted (split d s))) = sorted (split d s).
Proof.
  apply split_join.
  - apply sorted_not_nil, split_not_nil.
  - apply sorted_Forall, split_no_delim.
Qed.

(** X9. [canonical] only reorders: the segments of [query] and of
    [params] after the call are the segments before it, rearranged in
    ascending order; none is added, dropped or merged. *)
Theorem canonical_reorders_segments (u : URL) :
  Permutation (split "&" (query (canonical u))) (split "&" (query u)) /\
  ascending (split "&" (query (canonical u))) /\
  Permutation (split ";" (params (canonical u))) (split ";" (params u)) /\
  ascending (split ";" (params (canonical u))) /\
  scheme (canonical u) = scheme u /\ host (canonical u) = host u /\
  port (canonical u) = port u /\ path (canonical u) = path u /\
  fragment (canonical u) = fragment u /\ userinfo (canonical u) = userinfo u.
Proof.
  unfold canonical; cbn [query params scheme host port path fragment userinfo].
  rewrite !canonical_field_split.
  repeat split; (apply sorted_perm || apply sorted_ascending).
Qed.

(** X10. Two URLs whose queries hold the same segments in any order, and
    whose params do, have the same [query] and [params] after
    [canonical]. *)
Theorem canonical_ignores_order (u v : URL) :
  Permutation (split "&" (query u)) (split "&" (query v)) ->
  Permutation (split ";" (params u)) (split ";" (params v)) ->
  query (canonical u) = query (canonical v) /\
  params (canonical u) = params (canonical v).
Proof.
  intros Hq Hp. unfold canonical; cbn [query params].
  now rewrite (sorted_of_perm _ _ Hq), (sorted_of_perm _ _ Hp).
Qed.

Lemma canonical_ignores_order_witness :
  let u := URL_init (Some "http") (Some "x") None "/" "s;r" "c=3&a=1&b=2" None None in
  let v := URL_init (Some "http") (Some "x") None "/" "r;s" "b=2&c=3&a=1" None None in
  query (canonical u) = query (canonical v) /\
  params (canonical u) = params (canonical v).
Proof.
  intros u v. apply (canonical_ignores_order u v).
  - change (Permutation ["c=3"; "a=1"; "b=2"] ["b=2"; "c=3"; "a=1"]).
    apply Permutation_sym, (Permutation_cons_app ["c=3"; "a=1"] [] "b=2").
    reflexivity.
  - change (Permutation ["s"; "r"] ["r"; "s"]). apply perm_swap.
Defined.

(** ** The shape of the path after [abspath] *)

(** The path of [abspath] is a join of plain parts, of which only the
    first and the last may be empty. *)
Lemma abspath_path_form (p : string) :
  exists l, abspath_path p = join slash l /\ l <> [] /\
            Forall plain l /\ init_nonempty (tl l).
Proof.
  rewrite (abspath_path_unfold p).
  pose proof (walk_of_path p) as H.
  destruct (walk (split slash (Re.squeeze slash p)) ([], false)) as [u [|]];
    destruct H as (H1 & H2 & H3); cbn [render].
  - destruct u as [|a t].
    + exists [""; ""]. repeat split; try discriminate.
      repeat constructor; discriminate.
    + exists ((a :: t) ++ [""]). split.
      * now rewrite (join_snoc slash (a :: t) "") by discriminate.
      * split; [simpl; discriminate|]. split.
        -- apply Forall_app. split; [assumption|].
           constructor; [apply plain_empty | constructor].
        -- change (tl ((a :: t) ++ [""])) with (t ++ [""]).
           now apply init_nonempty_snoc.
  - exists u. repeat split; auto.
Qed.

(** The parts of the path after [abspath]. *)
Lemma abspath_no_dot_segments (u : URL) :
  has_double "/" (path (abspath u)) = false /\
  Forall (fun part => part <> "." /\ part <> "..")
    (split "/" (path (abspath u))).
Proof.
  cbn [abspath path].
  destruct (abspath_path_form (path u)) as (l & -> & Hnil & Hpl & Hin).
  assert (Forall (no_delim slash) l) as Hnd.
  { eapply Forall_impl; [|exact Hpl]. intros a (_ & _ & H). exact H. }
  split.
  - now apply (has_double_join slash).
  - change "/"%char with slash. rewrite split_join by assumption.
    eapply Forall_impl; [|exact Hpl]. intros a (A & B & _). now split.
Qed.

(** X11. After [abspath] the path holds no doubled ['/'] and none of its
    parts is ["."] or [".."], whatever the path was. *)
Theorem abspath_leaves_no_dot_segments (u : URL) :
  has_double "/" (path (abspath u)) = false /\
  Forall (fun part => part <> "." /\ part <> "..")
    (split "/" (path (abspath u))).
Proof. exact (abspath_no_dot_segments u). Qed.

(** ** What [escape] writes *)

Lemma all_chars_app (f : ascii -> bool) (a b : string) :
  all_chars f (a ++ b) = all_chars f a && all_chars f b.
Proof.
  induction a as [|c r IH]; [reflexivity|].
  simpl. now rewrite IH, andb_assoc.
Qed.

Lemma pct_encode_chars (c : ascii) :
  all_chars (encoded_char ALWAYS_SAFE) (pct_encode c) = true.
Proof. destruct c as [[] [] [] [] [] [] [] []]; reflexivity. Qed.

Lemma all_chars_impl (f g : ascii -> bool) (s : string) :
  (forall c, f c = true -> g c = true) ->
  all_chars f s = true -> all_chars g s = true.
Proof.
  intros H. induction s as [|c r IH]; [reflexivity|].
  simpl. intros E. apply andb_true_iff in E as [E1 E2].
  now rewrite (H c E1), IH.
Qed.

(** [quote] writes nothing but safe characters and escapes. *)
Lemma quote_chars (safe s : string) :
  (forall c, mem c ALWAYS_SAFE = true -> mem c safe = true) ->
  all_chars (encoded_char safe) (quote s safe) = true.
Proof.
  intros Hsafe. induction s as [|c r IH]; [reflexivity|].
  rewrite quote_cons. destruct (mem c ALWAYS_SAFE || mem c safe) eqn:E.
  - cbn [all_chars]. rewrite IH, andb_true_r. unfold encoded_char.
    apply orb_true_iff in E as [E | E]; [rewrite (Hsafe c E) | rewrite E];
      reflexivity.
  - rewrite all_chars_app, IH, andb_true_r.
    apply (all_chars_impl (encoded_char ALWAYS_SAFE)); [|apply pct_encode_chars].
    unfold encoded_char. intros x Hx.
    apply orb_true_iff in Hx as [Hx | Hx];
      [rewrite (Hsafe x Hx) | rewrite Hx, orb_true_r]; reflexivity.
Qed.

Lemma well_escaped_pct_encode (c : ascii) (t : string) :
  well_escaped (pct_encode c ++ t) = well_escaped t.
Proof. destruct c as [[] [] [] [] [] [] [] []]; reflexivity. Qed.

(** Every ['%'] that [quote] writes opens an escape. *)
Lemma quote_well_escaped (safe s : string) :
  mem percent safe = false -> well_escaped (quote s safe) = true.
Proof.
  intros Hsafe. induction s as [|c r IH]; [reflexivity|].
  rewrite quote_cons. destruct (mem c ALWAYS_SAFE || mem c safe) eqn:E.
  - cbn [well_escaped]. rewrite IH, andb_true_r.
    destruct (Ascii.eqb_spec c percent) as [->|_]; [|reflexivity].
    rewrite mem_percent_ALWAYS_SAFE, Hsafe in E. discriminate.
  - now rewrite well_escaped_pct_encode.
Qed.

Lemma ALWAYS_SAFE_in_PATH (c : ascii) :
  mem c ALWAYS_SAFE = true -> mem c PATH = true.
Proof. destruct c as [[] [] [] [] [] [] [] []]; intros H; (reflexivity || discriminate H). Qed.

Lemma ALWAYS_SAFE_in_QUERY (c : ascii) :
  mem c ALWAYS_SAFE = true -> mem c QUERY = true.
Proof. destruct c as [[] [] [] [] [] [] [] []]; intros H; (reflexivity || discriminate H). Qed.

(** X12. After [escape], [path], [query] and [params] hold only
    characters of their safe set and escapes: every other character has
    been encoded, and every ['%'] is followed by two hexadecimal
    digits. *)
Theorem escape_writes_safe_text (u : URL) :
  all_chars (encoded_char PATH) (path (escape u)) = true /\
  all_chars (encoded_char QUERY) (query (escape u)) = true /\
  all_chars (encoded_char QUERY) (params (escape u)) = true /\
  well_escaped (path (escape u)) = true /\
  well_escaped (query (escape u)) = true /\
  well_escaped (params (escape u)) = true.
Proof.
  cbn [escape path query params].
  repeat split;
    first [ apply quote_chars; (apply ALWAYS_SAFE_in_PATH || apply ALWAYS_SAFE_in_QUERY)
          | apply quote_well_escaped; reflexivity ].
Qed.

(** X13. Decoding the path [escape] wrote gives the decoded original:
    [unescape] after [escape] yields the path [unescape] alone yields. *)
Theorem unescape_after_escape (u : URL) :
  path (unescape (escape u)) = path (unescape u) /\
  path (unescape (escape u)) = unquote (path u).
Proof.
  cbn [unescape escape path]. split; now apply unquote_quote_unquote.
Qed.

(** ** Composing filters *)

Lemma keep_orb (f g : string -> string -> bool) (q : string) :
  keep (fun n v => f n v || g n v) q = keep f q && keep g q.
Proof.
  unfold keep. destruct (partition "=" q) as [[name found] value].
  apply negb_orb.
Qed.

Lemma filter_field_compose (d : ascii) (f g : string -> string -> bool) (s : string) :
  filter_field d g (filter_field d f s)
  = filter_field d (fun n v => f n v || g n v) s.
Proof.
  rewrite (filter_field_segments d g), segments_filter_field.
  rewrite (filter_field_segments d (fun n v => f n v || g n v)).
  rewrite <- filter_andb. f_equal. apply filter_ext. intros q.
  symmetry. apply keep_orb.
Qed.

Lemma filter_field_ext (d : ascii) (f g : string -> string -> bool) (s : string) :
  (forall n v, f n v = g n v) -> filter_field d f s = filter_field d g s.
Proof.
  intros H. unfold filter_field. f_equal. apply filter_ext. intros q.
  unfold keep. destruct (partition "=" q) as [[name found] value].
  now rewrite H.
Qed.

(** X14. Filters compose: removing by [f] and then by [g] is removing by
    "[f] or [g]"; filtering twice by the same predicate is filtering
    once; and [deparam] of two lists in turn is [deparam] of the two
    lists together. *)
Theorem filter_params_compose
    (f g : string -> string -> bool) (names1 names2 : list string) (u : URL) :
  filter_params g (filter_params f u)
    = filter_params (fun n v => f n v || g n v) u /\
  filter_params f (filter_params f u) = filter_params f u /\
  deparam names2 (deparam names1 u) = deparam (names1 ++ names2) u.
Proof.
  assert (forall f g, filter_params g (filter_params f u)
            = filter_params (fun n v => f n v || g n v) u) as Hc.
  { intros f' g'. unfold filter_params;
      cbn [scheme host port path params query fragment userinfo].
    now rewrite !filter_field_compose. }
  split; [apply Hc|]. split.
  - rewrite Hc. unfold filter_params. f_equal;
      apply filter_field_ext; intros n v; apply orb_diag.
  - unfold deparam. rewrite Hc. unfold filter_params. f_equal;
      apply filter_field_ext; intros n v;
      now rewrite map_app, existsb_app.
Qed.

(** X15. After [filter_params] or [deparam], [params] and [query] have no
    leading, trailing or doubled separator, whatever they held before:
    the call repairs fields in which [escape] decoded a separator. *)
Theorem filter_params_cleans_separators
    (f : string -> string -> bool) (names : list string) (u : URL) :
  separators_clean (filter_params f u) /\
  separators_clean (deparam names u) /\
  separators_clean (filter_params f (escape u)).
Proof.
  unfold separators_clean, deparam, filter_params; cbn [params query].
  repeat split; apply filter_field_clean.
Qed.

(** ** [quote] and the separators *)

Lemma quote_cons_char (safe : string) (c : ascii) (r : string) :
  quote (String c r) safe = (quote_char safe c ++ quote r safe)%string.
Proof.
  rewrite quote_cons. unfold quote_char.
  now destruct (mem c ALWAYS_SAFE || mem c safe).
Qed.

Lemma pct_encode_escape_chars (c : ascii) :
  all_chars (fun x => mem x ESCAPE_CHARS) (pct_encode c) = true.
Proof. destruct c as [[] [] [] [] [] [] [] []]; reflexivity. Qed.

Lemma mem_of_all_chars (d : ascii) (a s : string) :
  all_chars (fun x => mem x a) s = true -> mem d a = false -> mem d s = false.
Proof.
  intros Hs Hd. induction s as [|c r IH]; [reflexivity|].
  simpl in Hs. apply andb_true_iff in Hs as [Hc Hr].
  simpl. rewrite (IH Hr), orb_false_r.
  apply Ascii.eqb_neq. intros ->. congruence.
Qed.

Section QuoteSeparator.
Variable d : ascii.
Variable safe : string.
Hypothesis d_safe : mem d ALWAYS_SAFE || mem d safe = true.
Hypothesis d_no_escape_char : mem d ESCAPE_CHARS = false.

Lemma quote_char_delim : quote_char safe d = String d EmptyString.
Proof. unfold quote_char. now rewrite d_safe. Qed.

Lemma quote_char_other (c : ascii) :
  c <> d -> no_delim d (quote_char safe c) /\ quote_char safe c <> EmptyString.
Proof.
  intros Hc. unfold quote_char.
  destruct (mem c ALWAYS_SAFE || mem c safe).
  - split; [|discriminate]. unfold no_delim. simpl.
    rewrite orb_false_r. apply Ascii.eqb_neq. congruence.
  - split; [|discriminate]. unfold no_delim.
    apply (mem_of_all_chars d ESCAPE_CHARS);
      [apply pct_encode_escape_chars | exact d_no_escape_char].
Qed.

Lemma quote_app (a b : string) :
  quote (a ++ b) safe = (quote a safe ++ quote b safe)%string.
Proof.
  induction a as [|c r IH]; [reflexivity|].
  cbn [append]. rewrite !quote_cons_char, IH.
  now rewrite append_assoc.
Qed.

Lemma starts_with_app (x t : string) :
  x <> EmptyString -> starts_with d (x ++ t) = starts_with d x.
Proof. destruct x; [congruence | reflexivity]. Qed.

Lemma starts_with_quote (s : string) :
  starts_with d (quote s safe) = starts_with d s.
Proof.
  destruct s as [|c r]; [reflexivity|].
  rewrite quote_cons_char. destruct (Ascii.eqb_spec c d) as [->|Hc].
  - rewrite quote_char_delim. simpl. now rewrite Ascii.eqb_refl.
  - destruct (quote_char_other c Hc) as [H1 H2].
    rewrite starts_with_app by assumption.
    rewrite no_delim_starts_with by assumption.
    simpl. symmetry. now apply Ascii.eqb_neq.
Qed.

Lemma squeeze_app_no_delim (x t : string) :
  no_delim d x -> Re.squeeze d (x ++ t) = (x ++ Re.squeeze d t)%string.
Proof.
  induction x as [|c r IH]; intros Hx; [reflexivity|].
  unfold no_delim in Hx. simpl in Hx. apply orb_false_iff in Hx as [Hc Hr].
  cbn [append Re.squeeze]. rewrite Ascii.eqb_sym, Hc. cbn [andb].
  now rewrite (IH Hr).
Qed.

(** Squeezing the separator commutes with encoding. *)
Lemma squeeze_quote (s : string) :
  Re.squeeze d (quote s safe) = quote (Re.squeeze d s) safe.
Proof.
  induction s as [|c r IH]; [reflexivity|].
  rewrite quote_cons_char. destruct (Ascii.eqb_spec c d) as [->|Hc].
  - rewrite quote_char_delim. cbn [append Re.squeeze].
    rewrite Ascii.eqb_refl, starts_with_quote. cbn [andb].
    destruct (starts_with d r); [exact IH|].
    rewrite quote_cons_char, quote_char_delim. cbn [append]. now rewrite IH.
  - destruct (quote_char_other c Hc) as [H1 _].
    rewrite squeeze_app_no_delim by assumption.
    cbn [Re.squeeze]. apply Ascii.eqb_neq in Hc. rewrite Hc. cbn [andb].
    now rewrite quote_cons_char, IH.
Qed.

Lemma split_app_prefix (x t : string) :
  no_delim d x ->
  split d (x ++ t) =
  match split d t with
  | [] => [x]
  | p :: ps => (x ++ p)%string :: ps
  end.
Proof.
  induction x as [|c r IH]; intros Hx.
  - simpl. pose proof (split_not_nil d t). now destruct (split d t).
  - unfold no_delim in Hx. simpl in Hx. apply orb_false_iff in Hx as [Hc Hr].
    cbn [append split]. rewrite Ascii.eqb_sym, Hc. rewrite (IH Hr).
    pose proof (split_not_nil d t). now destruct (split d t).
Qed.

(** Splitting at the separator commutes with encoding. *)
Lemma split_quote (s : string) :
  split d (quote s safe) = map (fun x => quote x safe) (split d s).
Proof.
  induction s as [|c r IH]; [reflexivity|].
  rewrite quote_cons_char. destruct (Ascii.eqb_spec c d) as [->|Hc].
  - rewrite quote_char_delim. cbn [append split].
    rewrite Ascii.eqb_refl. cbn [map]. now rewrite IH.
  - destruct (quote_char_other c Hc) as [H1 _].
    rewrite split_app_prefix by assumption. rewrite IH.
    cbn [split]. apply Ascii.eqb_neq in Hc. rewrite Hc.
    pose proof (split_not_nil d r).
    destruct (split d r) as [|p ps]; [congruence|].
    cbn [map]. now rewrite quote_cons_char.
Qed.

(** Joining with the separator commutes with encoding. *)
Lemma join_quote (l : list string) :
  join d (map (fun x => quote x safe) l) = quote (join d l) safe.
Proof.
  induction l as [|x r IH]; [reflexivity|].
  destruct r as [|y r']; [reflexivity|].
  rewrite join_cons by discriminate.
  change (map (fun x => quote x safe) (x :: y :: r'))
    with (quote x safe :: map (fun x => quote x safe) (y :: r')).
  rewrite join_cons by discriminate. rewrite IH.
  rewrite quote_app, quote_cons_char, quote_char_delim. reflexivity.
Qed.

End QuoteSeparator.

(** ** Normalising again *)

Lemma forallb_Forall {A : Type} (f : A -> bool) (l : list A) :
  forallb f l = true <-> Forall (fun x => f x = true) l.
Proof. rewrite forallb_forall, Forall_forall. reflexivity. Qed.

Lemma valid_from_squeeze (d : ascii) (s : string) (st : dstate) :
  kind d = KAscii -> valid_from st (Re.squeeze d s) = valid_from st s.
Proof.
  intros K. revert st. induction s as [|c r IH]; intros st; [reflexivity|].
  cbn [Re.squeeze]. destruct (Ascii.eqb c d && starts_with d r) eqn:E.
  - apply andb_true_iff in E as [E1 E2]. apply Ascii.eqb_eq in E1. subst c.
    rewrite IH. destruct r as [|c' r']; [discriminate|].
    simpl in E2. apply Ascii.eqb_eq in E2. subst c'.
    cbn [valid_from]. rewrite (valid_step_ascii st d K).
    destruct st; try reflexivity.
    now rewrite (valid_step_ascii Start d K).
  - cbn [valid_from]. destruct (valid_step st c); [apply IH | reflexivity].
Qed.

Lemma utf8_ok_squeeze (d : ascii) (s : string) :
  kind d = KAscii -> utf8_ok (Re.squeeze d s) = utf8_ok s.
Proof. intros K. unfold utf8_ok. now rewrite valid_from_squeeze. Qed.

(** The walk of [abspath] keeps what holds of every part. *)
Lemma step_keeps (P : string -> Prop) (u : list string) (b : bool) (p : string) :
  Forall P u -> P p -> Forall P (fst (abspath_step (u, b) p)).
Proof.
  intros Hu Hp.
  destruct (step_cases u b p) as [[-> E] | [[-> E] | (N1 & N2 & E)]];
    rewrite E; cbn [fst].
  - now apply Forall_removelast.
  - assumption.
  - apply Forall_app. split; [assumption | now repeat constructor].
Qed.

Lemma walk_keeps (P : string -> Prop) (l u : list string) (b : bool) :
  Forall P u -> Forall P l -> Forall P (fst (walk l (u, b))).
Proof.
  intros Hu Hl. revert u b Hu. induction Hl as [|x r Hx Hr IH]; intros u b Hu.
  - exact Hu.
  - unfold walk in *. cbn [fold_left].
    pose proof (step_keeps P u b x Hu Hx) as Hs.
    destruct (abspath_step (u, b) x) as [u' b']. now apply IH.
Qed.

(** [abspath] makes a text of a text. *)
Lemma utf8_ok_abspath_path (y : string) :
  utf8_ok y = true -> utf8_ok (abspath_path y) = true.
Proof.
  intros Hy. rewrite abspath_path_unfold.
  assert (Forall (fun x => utf8_ok x = true) (split slash (Re.squeeze slash y))) as Hp.
  { apply forallb_Forall. rewrite <- (utf8_ok_split slash) by reflexivity.
    now rewrite utf8_ok_squeeze by reflexivity. }
  pose proof (walk_keeps _ _ [] false (Forall_nil _) Hp) as Hw.
  destruct (walk (split slash (Re.squeeze slash y)) ([], false)) as [u b].
  cbn [fst render] in *.
  assert (utf8_ok (join slash u) = true) as Hj.
  { rewrite utf8_ok_join by reflexivity. now apply forallb_Forall. }
  destruct b; [|exact Hj].
  change "/"%string with (String slash EmptyString).
  rewrite (utf8_ok_app_ascii slash) by reflexivity. now rewrite Hj.
Qed.

Section SettledField.
Variable d : ascii.
Variable safe : string.
Hypothesis d_safe : mem d ALWAYS_SAFE || mem d safe = true.
Hypothesis d_no_escape_char : mem d ESCAPE_CHARS = false.
Hypothesis d_ascii : kind d = KAscii.
Hypothesis percent_encoded : mem percent safe = false.

(** An encoded text is normalised to the encoding of its segments, sorted
    by their encodings. *)
Lemma normalise_field_quote (y : string) :
  utf8_ok y = true ->
  exists l, normalise_field d safe (quote y safe) = quote (join d l) safe /\
            l <> [] /\ Forall (no_delim d) l /\
            Forall (fun x => utf8_ok x = true) l /\
            ascending (map (fun x => quote x safe) l).
Proof.
  intros Hy.
  unfold normalise_field. rewrite (split_quote d safe d_safe d_no_escape_char).
  pose proof (sorted_perm (map (fun x => quote x safe) (split d y))) as Hp.
  destruct (Permutation_map_inv _ _ Hp) as (l & El & Pl).
  assert (Forall (fun x => utf8_ok x = true) l) as Hok.
  { apply (Permutation_Forall Pl). apply forallb_Forall.
    now rewrite <- (utf8_ok_split d) by exact d_ascii. }
  exists l. rewrite El.
  rewrite (join_quote d safe d_safe).
  rewrite unquote_quote;
    [| exact percent_encoded
     | rewrite utf8_ok_join by exact d_ascii; now apply forallb_Forall].
  split; [reflexivity|]. split.
  - intros ->. apply Permutation_sym, Permutation_nil in Pl.
    now apply (split_not_nil d y).
  - split; [apply (Permutation_Forall Pl), split_no_delim|].
    split; [exact Hok|].
    rewrite <- El. apply sorted_ascending.
Qed.

(** Such a text is normalised to itself. *)
Lemma normalise_field_settled (l : list string) :
  l <> [] -> Forall (no_delim d) l ->
  Forall (fun x => utf8_ok x = true) l ->
  ascending (map (fun x => quote x safe) l) ->
  normalise_field d safe (quote (join d l) safe) = quote (join d l) safe.
Proof.
  intros Hnil Hnd Hok Hasc. unfold normalise_field.
  rewrite (split_quote d safe d_safe d_no_escape_char).
  rewrite split_join by assumption.
  rewrite sorted_of_ascending by assumption.
  rewrite (join_quote d safe d_safe).
  rewrite unquote_quote;
    [ reflexivity | exact percent_encoded
    | rewrite utf8_ok_join by exact d_ascii; now apply forallb_Forall].
Qed.

Lemma normalise_field_thrice (s : string) :
  normalise_field d safe (normalise_field d safe (normalise_field d safe s))
  = normalise_field d safe (normalise_field d safe s).
Proof.
  assert (normalise_field d safe s
          = quote (unquote (join d (sorted (split d s)))) safe) as E
    by reflexivity.
  rewrite E.
  destruct (normalise_field_quote
              (unquote (join d (sorted (split d s))))
              (utf8_ok_unquote _)) as (l & El & H1 & H2 & H3 & H4).
  rewrite El. now apply normalise_field_settled.
Qed.

End SettledField.

Lemma quote_path_injective (a b : string) :
  quote_path a = quote_path b -> a = b.
Proof.
  unfold quote_path. intros H.
  rewrite <- (unquote_to_bytes_quote PATH a), <- (unquote_to_bytes_quote PATH b)
    by reflexivity.
  now rewrite H.
Qed.

Lemma map_removelast {A B : Type} (f : A -> B) (l : list A) :
  removelast (map f l) = map f (removelast l).
Proof.
  induction l as [|x r IH]; [reflexivity|].
  destruct r as [|y r']; [reflexivity|].
  change (removelast (map f (x :: y :: r')))
    with (f x :: removelast (map f (y :: r'))).
  now rewrite IH.
Qed.

Lemma step_quote (u : list string) (b : bool) (part : string) :
  abspath_step (map quote_path u, b) (quote_path part)
  = (map quote_path (fst (abspath_step (u, b) part)),
     snd (abspath_step (u, b) part)).
Proof.
  destruct (step_cases u b part) as [[-> E] | [[-> E] | (N1 & N2 & E)]];
    rewrite E; cbn [fst snd].
  - change (quote_path "..") with "..". rewrite step_dotdot.
    now rewrite map_removelast.
  - change (quote_path ".") with ".". now rewrite step_dot.
  - rewrite step_other.
    + now rewrite map_app.
    + intros H. apply N1. now apply quote_path_injective.
    + intros H. apply N2. now apply quote_path_injective.
Qed.

Lemma walk_quote (l u : list string) (b : bool) :
  walk (map quote_path l) (map quote_path u, b)
  = (map quote_path (fst (walk l (u, b))), snd (walk l (u, b))).
Proof.
  revert u b. induction l as [|x r IH]; intros u b; [reflexivity|].
  unfold walk in *. cbn [map fold_left]. rewrite step_quote.
  destruct (abspath_step (u, b) x) as [u' b']. cbn [fst snd]. apply IH.
Qed.

Lemma slash_safe : mem slash ALWAYS_SAFE || mem slash PATH = true.
Proof. reflexivity. Qed.

Lemma slash_no_escape_char : mem slash ESCAPE_CHARS = false.
Proof. reflexivity. Qed.

(** [abspath] commutes with encoding the path. *)
Lemma abspath_path_quote (y : string) :
  abspath_path (quote_path y) = quote_path (abspath_path y).
Proof.
  rewrite !abspath_path_unfold. unfold quote_path at 1.
  rewrite (squeeze_quote slash PATH slash_safe slash_no_escape_char).
  rewrite (split_quote slash PATH slash_safe slash_no_escape_char).
  change (fun x => quote x PATH) with quote_path.
  change (@nil string) with (map quote_path []) at 1.
  rewrite walk_quote.
  destruct (walk (split slash (Re.squeeze slash y)) ([], false)) as [u b].
  cbn [fst snd render]. unfold quote_path.
  rewrite (join_quote slash PATH slash_safe).
  destruct b; [|reflexivity].
  now rewrite (quote_app PATH).
Qed.

Lemma normalise_path_thrice (p : string) :
  normalise_path (normalise_path (normalise_path p))
  = normalise_path (normalise_path p).
Proof.
  assert (forall y, utf8_ok y = true ->
                    normalise_path (quote_path y) = quote_path (abspath_path y)) as Hq.
  { intros y Hy. unfold normalise_path. rewrite abspath_path_quote.
    unfold quote_path.
    now rewrite (unquote_quote PATH (abspath_path y) eq_refl
                   (utf8_ok_abspath_path y Hy)). }
  assert (normalise_path p = quote_path (unquote (abspath_path p))) as E
    by reflexivity.
  rewrite E.
  rewrite (Hq _ (utf8_ok_unquote _)).
  rewrite (Hq _ (utf8_ok_abspath_path _ (utf8_ok_unquote _))).
  now rewrite abspath_path_idempotent.
Qed.

Lemma normalise_fields (u : URL) :
  normalise u =
  mkURL (scheme u) (host u) (port u) (normalise_path (path u))
    (normalise_field ";" QUERY (params u))
    (normalise_field "&" QUERY (query u)) None (userinfo (escape u)).
Proof. reflexivity. Qed.

Lemma userinfo_escape_escape (u v : URL) :
  userinfo v = userinfo (escape u) -> userinfo (escape v) = userinfo (escape u).
Proof.
  intros H. rewrite <- (escape_idempotent u).
  unfold escape at 1 3. cbn [userinfo]. now rewrite H.
Qed.

Lemma semicolon_safe : mem ";" ALWAYS_SAFE || mem ";" QUERY = true.
Proof. reflexivity. Qed.

Lemma ampersand_safe : mem "&" ALWAYS_SAFE || mem "&" QUERY = true.
Proof. reflexivity. Qed.

(** Three normalisations are two. *)
Lemma normalise_thrice (u : URL) :
  normalise (normalise (normalise u)) = normalise (normalise u).
Proof.
  rewrite (normalise_fields (normalise (normalise u))).
  rewrite (normalise_fields (normalise u)) at 5.
  rewrite (userinfo_escape_escape (normalise u) (normalise (normalise u)))
    by reflexivity.
  rewrite (normalise_fields (normalise u)) at 1 2 3 4 5 6.
  cbn [scheme host port path params query].
  rewrite (normalise_fields u) at 1 2 3 4 5 6 7 8 9.
  cbn [scheme host port path params query].
  rewrite normalise_path_thrice.
  rewrite (normalise_field_thrice ";" QUERY semicolon_safe eq_refl eq_refl eq_refl).
  rewrite (normalise_field_thrice "&" QUERY ampersand_safe eq_refl eq_refl eq_refl).
  reflexivity.
Qed.

(** X16. The normalisation of [equiv] settles at its second application:
    normalising a third time changes nothing.  (The second application
    can still change the URL: [abspath] runs before [escape] decodes an
    encoded [".."].) *)
Theorem normalise_settles (u : URL) :
  normalise (normalise (normalise u)) = normalise (normalise u).
Proof. exact (normalise_thrice u). Qed.

Lemma put_same (h : Obj.store) (r : Obj.ref) (u : URL) :
  nth_error h r = Some u -> Obj.put h r u = h.
Proof.
  revert r. induction h as [|x t IH]; intros [|r] H; try discriminate.
  - now injection H as ->.
  - simpl in *. now rewrite (IH r H).
Qed.

(** X17. From the second call on, [equiv] between two objects is stable:
    after two calls, a further call returns the answer of the second call
    and leaves the store as it is. *)
Theorem equiv_settles_after_two_calls
    (h : Obj.store) (r1 r2 : Obj.ref) (u v : URL) :
  r1 <> r2 -> nth_error h r1 = Some u -> nth_error h r2 = Some v ->
  exists b h2,
    Obj.bind (Obj.equiv r1 (Obj.AUrl r2)) (fun _ => Obj.equiv r1 (Obj.AUrl r2)) h
      = Obj.Done b h2 /\
    Obj.equiv r1 (Obj.AUrl r2) h2 = Obj.Done b h2.
Proof.
  intros Hne H1 H2.
  destruct (equiv_run_on_two h r1 r2 u v Hne H1 H2) as (E1 & A1 & A2 & _).
  destruct (equiv_run_on_two _ r1 r2 _ _ Hne A1 A2) as (E2 & B1 & B2 & _).
  destruct (equiv_run_on_two _ r1 r2 _ _ Hne B1 B2) as (E3 & _).
  eexists. eexists. split.
  - unfold Obj.bind. rewrite E1. exact E2.
  - rewrite E3, !normalise_thrice. f_equal.
    rewrite (put_same _ r2 _ B2). now apply put_same.
Qed.

Lemma equiv_settles_after_two_calls_witness :
  let u := URL_init (Some "http") (Some "x") None "/a/%2E%2E/b" "" "" None None in
  let v := URL_init (Some "http") (Some "x") None "/b" "" "" None None in
  exists b h2,
    Obj.bind (Obj.equiv 0 (Obj.AUrl 1)) (fun _ => Obj.equiv 0 (Obj.AUrl 1)) [u; v]
      = Obj.Done b h2 /\
    Obj.equiv 0 (Obj.AUrl 1) h2 = Obj.Done b h2.
Proof.
  intros u v.
  exact (equiv_settles_after_two_calls [u; v] 0 1 u v (O_S 0) eq_refl eq_refl).
Defined.

(** ** Fixed points of [abspath] *)

(** X18. [abspath] leaves a URL as it is exactly when its path has no
    doubled ['/'] and no part that is ["."] or [".."]. *)
Theorem abspath_fixed_points (u : URL) :
  abspath u = u <->
  has_double "/" (path u) = false /\
  Forall (fun part => part <> "." /\ part <> "..") (split "/" (path u)).
Proof.
  split.
  - intros E. rewrite <- E. apply abspath_no_dot_segments.
  - intros [Hd Hp].
    assert (abspath_path (path u) = path u) as E.
    { rewrite <- (join_split slash (path u)) at 2.
      rewrite <- (join_split slash (path u)) at 1.
      apply abspath_path_fixed.
      - apply split_not_nil.
      - pose proof (split_no_delim slash (path u)) as Hnd.
        apply Forall_forall. intros x Hx. repeat split.
        + exact (proj2 (proj1 (Forall_forall _ _) Hp x Hx)).
        + exact (proj1 (proj1 (Forall_forall _ _) Hp x Hx)).
        + exact (proj1 (Forall_forall _ _) Hnd x Hx).
      - apply (has_double_join slash); [apply split_no_delim|].
        now rewrite join_split. }
    destruct u as [sch hst p pa pr q f ui]. unfold abspath.
    cbn [scheme host port path params query fragment userinfo] in *.
    now rewrite E.
Qed.

(** ** [sanitize] *)

Lemma URL_fields_eq (a b : URL) :
  scheme a = scheme b -> host a = host b -> port a = port b ->
  path a = path b -> params a = params b -> query a = query b ->
  fragment a = fragment b -> userinfo a = userinfo b -> a = b.
Proof. destruct a, b; simpl; intros; congruence. Qed.

(** X19. [sanitize] settles at its second application: a third call
    changes nothing.  (A second call can still change the path, when the
    first decoded an encoded [".."].) *)
Theorem sanitize_settles (u : URL) :
  sanitize (sanitize (sanitize u)) = sanitize (sanitize u).
Proof.
  apply URL_fields_eq; try reflexivity.
  - change (normalise_path (normalise_path (normalise_path (path u)))
            = normalise_path (normalise_path (path u))).
    apply normalise_path_thrice.
  - change (quote (unquote (quote (unquote (quote (unquote (params u)) QUERY)) QUERY)) QUERY
            = quote (unquote (quote (unquote (params u)) QUERY)) QUERY).
    now rewrite !(escape_field_idempotent QUERY) by reflexivity.
  - change (quote (unquote (quote (unquote (quote (unquote (query u)) QUERY)) QUERY)) QUERY
            = quote (unquote (quote (unquote (query u)) QUERY)) QUERY).
    now rewrite !(escape_field_idempotent QUERY) by reflexivity.
  - change (userinfo (escape (escape (escape u))) = userinfo (escape (escape u))).
    now rewrite !escape_idempotent.
Qed.

(** ** The names of [deparam] *)



